(** * Voice Topic Tree: the segmentation controller of [voice_app.py]

    A shallow embedding of the session state of the Streamlit script and of
    the functions that mutate it ([detect_topic_change], [add_node],
    [update_current_node], [process_recording], the audio handler and the
    "Reset All" handler), followed by the properties of the topic tree that
    the specification states.

    The two remote services (Whisper transcription, the chat completion used
    as topic classifier) are oracles: what they answer for a recording is
    carried by the recording itself. Of the Streamlit calls, those that can
    fail on the data of a session are kept: [st.info] raises when the label
    it is given cannot be encoded. *)

From Stdlib Require Import String Ascii.
From Stdlib Require Import List Bool Arith ZArith NArith Lia.
From Stdlib Require Import SpecFloat.
Import ListNotations.

Set Implicit Arguments.
Set Warnings "-register-all".

(* ================================================================== *)
(** ** Python values *)

(** A Python [str] is a sequence of Unicode code points. *)
Definition pystr := list N.

(** A literal of the source, read as code points. *)
Definition str (s : string) : pystr :=
  map N_of_ascii (list_ascii_of_string s).

Fixpoint pystr_eqb (a b : pystr) : bool :=
  match a, b with
  | [], [] => true
  | x :: a', y :: b' => N.eqb x y && pystr_eqb a' b'
  | _, _ => false
  end.

(** [str.isspace] on one code point (CPython's [_PyUnicode_IsWhitespace]). *)
Definition is_space (c : N) : bool :=
  ((9 <=? c) && (c <=? 13) || (28 <=? c) && (c <=? 32)
   || (c =? 133) || (c =? 160) || (c =? 5760)
   || (8192 <=? c) && (c <=? 8202)
   || (c =? 8232) || (c =? 8233) || (c =? 8239) || (c =? 8287)
   || (c =? 12288))%N.

Fixpoint lstrip (s : pystr) : pystr :=
  match s with
  | [] => []
  | c :: s' => if is_space c then lstrip s' else s
  end.

Definition rstrip (s : pystr) : pystr := rev (lstrip (rev s)).

(** [s.strip()] *)
Definition strip (s : pystr) : pystr := rstrip (lstrip s).

(** What [json.loads] can return, which is also what a node label and the
    current topic label can hold. A dict is given by its items, whose keys
    are distinct; a float by its IEEE 754 value. *)
Inductive pyval : Type :=
| PyNone
| PyBool (b : bool)
| PyInt (z : Z)
| PyFloat (f : spec_float)
| PyStr (s : pystr)
| PyList (l : list pyval)
| PyDict (items : list (pystr * pyval)).

(** Python truth value, as tested by [if v:]. *)
Definition truthy (v : pyval) : bool :=
  match v with
  | PyNone => false
  | PyBool b => b
  | PyInt z => negb (z =? 0)%Z
  | PyFloat (S754_zero _) => false
  | PyFloat _ => true
  | PyStr s => negb (length s =? 0)
  | PyList l => negb (length l =? 0)
  | PyDict items => negb (length items =? 0)
  end.

Inductive exn : Type :=
| KeyError (key : pystr)
| TypeError
| UnicodeEncodeError.

(** A surrogate code point. [json.loads] accepts the escape of a single
    surrogate, so a string of a reply can hold one; such a string cannot be
    encoded as UTF-8. *)
Definition is_surrogate (c : N) : bool :=
  ((55296 <=? c) && (c <=? 57343))%N.

(** Whether the text that an f-string makes of [v] can be encoded as UTF-8.
    A [str] is inserted as it is. Of every other value [str()] gives digits
    and words, or a [repr], in which a surrogate is written as an escape. *)
Definition encodable (v : pyval) : bool :=
  match v with
  | PyStr s => forallb (fun c => negb (is_surrogate c)) s
  | _ => true
  end.

Fixpoint dict_get (items : list (pystr * pyval)) (key : pystr) : option pyval :=
  match items with
  | [] => None
  | (k, v) :: rest => if pystr_eqb k key then Some v else dict_get rest key
  end.

(** [v[key]] for a string key: a dict is looked up, anything else that
    [json.loads] returns is not subscriptable by a string. *)
Definition getitem (v : pyval) (key : pystr) : exn + pyval :=
  match v with
  | PyDict items =>
      match dict_get items key with
      | Some x => inr x
      | None => inl (KeyError key)
      end
  | _ => inl TypeError
  end.

(* ================================================================== *)
(** ** Session state *)

Module Node.
(** The dict built by [add_node]. *)
Record t : Type := mk {
  id : nat;
  label : pyval;
  text : pystr;
  parent_id : option nat;
  children : list nat
}.

Definition set_text (n : t) (txt : pystr) : t :=
  mk (id n) (label n) txt (parent_id n) (children n).
End Node.

(** The keys of [st.session_state] that the script uses. The two keys that
    are not initialised at start-up are absent when [None]. *)
Record session_state : Type := mk_state {
  tree_nodes : list Node.t;
  current_parent : option nat;
  conversation_history : list pystr;
  node_counter : nat;
  current_topic_text : pystr;
  current_topic_label : pyval;
  selected_node : option nat;
  last_audio_id : option nat
}.

Definition initial : session_state :=
  mk_state [] None [] 0 [] PyNone None None.

Definition set_tree_nodes (v : list Node.t) (s : session_state) :=
  mk_state v (current_parent s) (conversation_history s) (node_counter s)
    (current_topic_text s) (current_topic_label s) (selected_node s)
    (last_audio_id s).

Definition set_current_parent (v : option nat) (s : session_state) :=
  mk_state (tree_nodes s) v (conversation_history s) (node_counter s)
    (current_topic_text s) (current_topic_label s) (selected_node s)
    (last_audio_id s).

Definition set_conversation_history (v : list pystr) (s : session_state) :=
  mk_state (tree_nodes s) (current_parent s) v (node_counter s)
    (current_topic_text s) (current_topic_label s) (selected_node s)
    (last_audio_id s).

Definition set_node_counter (v : nat) (s : session_state) :=
  mk_state (tree_nodes s) (current_parent s) (conversation_history s) v
    (current_topic_text s) (current_topic_label s) (selected_node s)
    (last_audio_id s).

Definition set_current_topic_label (v : pyval) (s : session_state) :=
  mk_state (tree_nodes s) (current_parent s) (conversation_history s)
    (node_counter s) (current_topic_text s) v (selected_node s)
    (last_audio_id s).

Definition set_selected_node (v : option nat) (s : session_state) :=
  mk_state (tree_nodes s) (current_parent s) (conversation_history s)
    (node_counter s) (current_topic_text s) (current_topic_label s) v
    (last_audio_id s).

Definition set_last_audio_id (v : option nat) (s : session_state) :=
  mk_state (tree_nodes s) (current_parent s) (conversation_history s)
    (node_counter s) (current_topic_text s) (current_topic_label s)
    (selected_node s) v.

(* ================================================================== *)
(** ** Statements that read and write the session and may raise *)

Inductive outcome (A : Type) : Type :=
| Returned (a : A) (s : session_state)
| Raised (e : exn) (s : session_state).

Arguments Raised {A} e s.

Definition M (A : Type) : Type := session_state -> outcome A.

Definition ret {A} (a : A) : M A := fun s => Returned a s.

Definition bind {A B} (c : M A) (k : A -> M B) : M B :=
  fun s =>
    match c s with
    | Returned a s' => k a s'
    | Raised e s' => Raised e s'
    end.

Definition gets {A} (f : session_state -> A) : M A :=
  fun s => Returned (f s) s.

Definition modify (f : session_state -> session_state) : M unit :=
  fun s => Returned tt (f s).

(** A pure expression that evaluates or raises. *)
Definition eval {A} (r : exn + A) : M A :=
  fun s =>
    match r with
    | inr a => Returned a s
    | inl e => Raised e s
    end.

(** [st.info(f"... {shown} ...")]: the message is sent to the browser as
    UTF-8, which fails when the inserted label cannot be encoded. *)
Definition st_info (shown : pyval) : M unit :=
  fun s =>
    if encodable shown then Returned tt s else Raised UnicodeEncodeError s.

Notation "x <- c ;; k" := (bind c (fun x => k))
  (at level 61, c at next level, right associativity).
Notation "c ;;; k" := (bind c (fun _ => k))
  (at level 61, right associativity).

(** The session after a statement, whether it returned or raised: the keys
    written before an exception stay written. *)
Definition state_of {A} (o : outcome A) : session_state :=
  match o with
  | Returned _ s => s
  | Raised _ s => s
  end.

(* ================================================================== *)
(** ** The outside world *)

(** What the body of the [try] in [detect_topic_change] comes to: either
    some statement raised (the request, or [json.loads] on the content), or
    [json.loads] produced a value. *)
Inductive chat_reply : Type :=
| Failed
| Parsed (result : pyval).

(** The dict returned by [mic_recorder], with what the two services answer
    for it. [transcription] is the return value of [transcribe_audio]:
    [None] when the request raised, and otherwise the text of the response,
    which was decoded from UTF-8 and so holds no surrogate: showing it
    ([st.success], [st.text_area]) does not fail. *)
Record recording : Type := mk_recording {
  rec_id : nat;
  transcription : option pystr;
  completion : chat_reply
}.

(* ================================================================== *)
(** ** The functions of the script *)

Definition k_topic_changed : pystr := str "topic_changed".
Definition k_topic_label : pystr := str "topic_label".

Definition transcribe_audio (audio : recording) : option pystr :=
  transcription audio.

(** The dict of the [except] branch. *)
Definition fallback (conversation_history : list pystr) : pyval :=
  PyDict [ (k_topic_changed, PyBool (length conversation_history =? 0));
           (k_topic_label, PyStr (str "New Topic")) ].

(** [new_text] and [current_topic] only go into the prompt. *)
Definition detect_topic_change (reply : chat_reply) (new_text : pystr)
    (conversation_history : list pystr) (current_topic : pyval) : pyval :=
  match reply with
  | Parsed result => result
  | Failed => fallback conversation_history
  end.

Definition add_node (topic_label : pyval) (full_text : pystr)
    (parent_id : option nat) : M nat :=
  counter <- gets node_counter ;;
  let node := Node.mk counter topic_label full_text parent_id [] in
  modify (fun s => set_tree_nodes (tree_nodes s ++ [node]) s) ;;;
  modify (fun s => set_node_counter (node_counter s + 1) s) ;;;
  ret (Node.id node).

(** The [for ... if ... break] loop of [update_current_node]: the first node
    with the given id gets the text appended. *)
Fixpoint append_to_first (current_node_id : nat) (extra : pystr)
    (nodes : list Node.t) : list Node.t :=
  match nodes with
  | [] => []
  | node :: rest =>
      if Node.id node =? current_node_id
      then Node.set_text node (Node.text node ++ extra) :: rest
      else node :: append_to_first current_node_id extra rest
  end.

Definition update_current_node (additional_text : pystr) : M unit :=
  nodes <- gets tree_nodes ;;
  match nodes with
  | [] => ret tt
  | _ :: _ =>
      current_node_id <- gets current_parent ;;
      match current_node_id with
      | Some cid =>
          modify (fun s =>
            set_tree_nodes
              (append_to_first cid (str " " ++ additional_text) (tree_nodes s)) s)
      | None => ret tt
      end
  end.

(** [transcript and len(transcript.strip()) > 0] *)
Definition accepted (transcript : option pystr) : bool :=
  match transcript with
  | None => false
  | Some t => negb (length t =? 0) && (0 <? length (strip t))
  end.

Definition process_recording (audio_data : option recording) : M unit :=
  match audio_data with
  | None => ret tt
  | Some audio =>
      match transcribe_audio audio with
      | Some transcript =>
          if accepted (Some transcript) then
            history <- gets conversation_history ;;
            current <- gets current_topic_label ;;
            let topic_info :=
              detect_topic_change (completion audio) transcript history current in
            changed <- eval (getitem topic_info k_topic_changed) ;;
            (if truthy changed then
               lbl <- eval (getitem topic_info k_topic_label) ;;
               parent <- gets current_parent ;;
               node_id <- add_node lbl transcript parent ;;
               modify (set_current_parent (Some node_id)) ;;;
               lbl' <- eval (getitem topic_info k_topic_label) ;;
               modify (set_current_topic_label lbl') ;;;
               shown <- eval (getitem topic_info k_topic_label) ;;
               st_info shown
             else
               update_current_node transcript ;;;
               shown <- gets current_topic_label ;;
               st_info shown) ;;;
            modify (fun s =>
              set_conversation_history (conversation_history s ++ [transcript]) s)
          else ret tt
      | None => ret tt
      end
  end.

(** The block under [if audio is not None:] of the main script. *)
Definition on_audio (audio : option recording) : M unit :=
  match audio with
  | None => ret tt
  | Some a =>
      last <- gets last_audio_id ;;
      let is_new :=
        match last with
        | None => true
        | Some l => negb (rec_id a =? l)
        end in
      if is_new then
        modify (set_last_audio_id (Some (rec_id a))) ;;;
        process_recording (Some a)
      else ret tt
  end.

(** The body of the "Reset All" button. *)
Definition reset_all (s : session_state) : session_state :=
  let s := set_tree_nodes [] s in
  let s := set_current_parent None s in
  let s := set_conversation_history [] s in
  let s := set_node_counter 0 s in
  let s := set_current_topic_label PyNone s in
  set_selected_node None s.

(** A "View" button exists for each rendered node and stores its id. *)
Definition view (nid : nat) (s : session_state) : session_state :=
  if existsb (fun n => Node.id n =? nid) (tree_nodes s)
  then set_selected_node (Some nid) s
  else s.

(* ================================================================== *)
(** ** Sessions *)

(** What can happen to a session: a recording arrives through the recorder
    widget, the controller is handed a recording directly, or one of the
    buttons is pressed. *)
Inductive event : Type :=
| Recorded (a : recording)
| Ingest (a : recording)
| ResetAll
| View (nid : nat).

Definition handle (e : event) (s : session_state) : session_state :=
  match e with
  | Recorded a => state_of (on_audio (Some a) s)
  | Ingest a => state_of (process_recording (Some a) s)
  | ResetAll => reset_all s
  | View nid => view nid s
  end.

Inductive reachable : session_state -> Prop :=
| reach_initial : reachable initial
| reach_step e s : reachable s -> reachable (handle e s).

(** The controller applied to a sequence of recordings. *)
Definition ingest_all (rs : list recording) (s : session_state) : session_state :=
  fold_left (fun s r => state_of (process_recording (Some r) s)) rs s.

(** A recording heard as [u] for which the classifier answers the given
    decision. *)
Definition decided (u : pystr) (changed : bool) (lbl : pyval) : recording :=
  mk_recording 0 (Some u)
    (Parsed (PyDict [ (k_topic_changed, PyBool changed); (k_topic_label, lbl) ])).

(** A recording heard as [u] for which the classifier call fails. *)
Definition undecided (u : pystr) : recording :=
  mk_recording 0 (Some u) Failed.

(** The value of [topic_info['topic_changed']] (or the exception) when
    recording [r], heard as [u], is processed in state [s]. *)
Definition topic_info (r : recording) (u : pystr) (s : session_state) : pyval :=
  detect_topic_change (completion r) u (conversation_history s)
    (current_topic_label s).

(** The classifier step yields "topic changed" with label [lbl]. *)
Definition says_changed (r : recording) (u : pystr) (s : session_state)
    (lbl : pyval) : Prop :=
  exists x, getitem (topic_info r u s) k_topic_changed = inr x
            /\ truthy x = true
            /\ getitem (topic_info r u s) k_topic_label = inr lbl.

(** The classifier step yields "same topic". *)
Definition says_continue (r : recording) (u : pystr) (s : session_state) : Prop :=
  exists x, getitem (topic_info r u s) k_topic_changed = inr x
            /\ truthy x = false.

(** Empty or made of white space only. *)
Definition whitespace_only (u : pystr) : Prop :=
  Forall (fun c => is_space c = true) u.

(** [None] for the first position, the position before otherwise. *)
Definition previous (i : nat) : option nat :=
  match i with
  | 0 => None
  | S j => Some j
  end.

(** The session when the utterance [u] has opened a topic labelled [lbl] and
    the log has not been written yet (lines 172 to 178). *)
Definition changed_state (u : pystr) (s : session_state) (lbl : pyval)
    : session_state :=
  mk_state
    (tree_nodes s ++ [Node.mk (node_counter s) lbl u (current_parent s) []])
    (Some (node_counter s))
    (conversation_history s)
    (node_counter s + 1)
    (current_topic_text s)
    lbl
    (selected_node s)
    (last_audio_id s).

(** The session after the utterance [u] has opened a topic labelled [lbl]. *)
Definition after_change (u : pystr) (s : session_state) (lbl : pyval)
    : session_state :=
  mk_state
    (tree_nodes s ++ [Node.mk (node_counter s) lbl u (current_parent s) []])
    (Some (node_counter s))
    (conversation_history s ++ [u])
    (node_counter s + 1)
    (current_topic_text s)
    lbl
    (selected_node s)
    (last_audio_id s).

(** The tree after [update_current_node u]. *)
Definition continued_nodes (u : pystr) (s : session_state) : list Node.t :=
  match tree_nodes s, current_parent s with
  | _ :: _, Some cid => append_to_first cid (str " " ++ u) (tree_nodes s)
  | nodes, _ => nodes
  end.

(** The session when [update_current_node u] has run and the log has not
    been written yet (line 182). *)
Definition continued_state (u : pystr) (s : session_state) : session_state :=
  mk_state (continued_nodes u s) (current_parent s)
    (conversation_history s)
    (node_counter s) (current_topic_text s) (current_topic_label s)
    (selected_node s) (last_audio_id s).

(** The session after the utterance [u] has continued the active topic. *)
Definition after_continue (u : pystr) (s : session_state) : session_state :=
  mk_state (continued_nodes u s) (current_parent s)
    (conversation_history s ++ [u])
    (node_counter s) (current_topic_text s) (current_topic_label s)
    (selected_node s) (last_audio_id s).

(** The classifier returned a reply that reads as "topic changed" and
    carries a label; the transcript is accepted. *)
Definition topic_change (r : recording) : Prop :=
  exists u v x lbl,
    transcription r = Some u /\ accepted (Some u) = true
    /\ completion r = Parsed v
    /\ getitem v k_topic_changed = inr x /\ truthy x = true
    /\ getitem v k_topic_label = inr lbl.

(** The shape of the tree: ids count up from 0 in list order, each node
    hangs under the one created before it, and the active pointer is the
    last node created. *)
Record chain (s : session_state) : Prop := mk_chain {
  chain_ids : map Node.id (tree_nodes s) = seq 0 (node_counter s);
  chain_parents :
    forall i n, nth_error (tree_nodes s) i = Some n ->
                Node.parent_id n = previous i;
  chain_active : current_parent s = previous (node_counter s)
}.

(** Sample data. *)
Definition hello : pystr := str "hello".

Definition new_topic : pyval := PyStr (str "New Topic").

(** A reply that parses as JSON and has none of the two fields. *)
Definition empty_reply : recording :=
  mk_recording 0 (Some hello) (Parsed (PyDict [])).

(** A session in which one topic "A" has been opened by the utterance "hi". *)
Definition one_topic : session_state :=
  handle (Ingest (decided (str "hi") true (PyStr (str "A")))) initial.

(** A session in which a second topic "B" was opened after that. *)
Definition two_topics : session_state :=
  handle (Ingest (decided (str "bye") true (PyStr (str "B")))) one_topic.

(** The label that [json.loads] makes of the JSON string with the single
    escape of the surrogate U+D800. *)
Definition lone_surrogate : pyval := PyStr [55296%N].

(** The session after the first utterance "x" was given that label: node 0
    exists, and the log is empty because line 179 raised. *)
Definition unlogged_topic : session_state :=
  handle (Ingest (decided (str "x") true lone_surrogate)) initial.

(* ================================================================== *)
(** ** Prompt context and presentation *)

(** [sep.join(parts)] *)
Fixpoint join (sep : pystr) (parts : list pystr) : pystr :=
  match parts with
  | [] => []
  | p :: rest =>
      match rest with
      | [] => p
      | _ :: _ => p ++ sep ++ join sep rest
      end
  end.

(** [l[start:]] for a Python int [start]: a negative start counts from the
    end, and the start is clamped to the list. *)
Definition slice_from {A : Type} (start : Z) (l : list A) : list A :=
  let len := Z.of_nat (length l) in
  let i := if (start <? 0)%Z then Z.max (start + len) 0 else Z.min start len in
  skipn (Z.to_nat i) l.

(** [recent_context] of [detect_topic_change]:
    [" ".join(conversation_history[-3:]) if conversation_history else ""]. *)
Definition recent_context (conversation_history : list pystr) : pystr :=
  match conversation_history with
  | [] => []
  | _ :: _ => join (str " ") (slice_from (-3) conversation_history)
  end.

(** [enumerate(l, start)] *)
Fixpoint enumerate {A : Type} (start : Z) (l : list A) : list (Z * A) :=
  match l with
  | [] => []
  | x :: rest => (start, x) :: enumerate (start + 1) rest
  end.

(** The arguments of one [st.text_area] call of the "Conversation History"
    loop: the number put after "Recording" in the label, the [value]
    argument, and the [i] of the [key] argument [history_i]. What the widget
    then displays is left to Streamlit. *)
Record text_area : Type := mk_text_area {
  area_number : Z;
  area_value : pystr;
  area_key : Z
}.

(** The calls made by the loop over [conversation_history[-5:]] of the main
    script, in order. *)
Definition history_panel (conversation_history : list pystr) : list text_area :=
  match conversation_history with
  | [] => []
  | _ :: _ =>
      map (fun it =>
             mk_text_area
               (Z.of_nat (length conversation_history) - 5 + fst it)
               (snd it) (fst it))
          (enumerate 1 (slice_from (-5) conversation_history))
  end.

(** [n.get("parent_id") == node["id"]] *)
Definition is_child_of (node n : Node.t) : bool :=
  match Node.parent_id n with
  | Some p => p =? Node.id node
  | None => false
  end.

(** [n.get("parent_id") is None] *)
Definition is_root (n : Node.t) : bool :=
  match Node.parent_id n with
  | Some _ => false
  | None => true
  end.

(** The list comprehension of [render_tree_node]:
    [[n for n in tree_nodes if n.get("parent_id") == node["id"]]]. *)
Definition children_of (nodes : list Node.t) (node : Node.t) : list Node.t :=
  filter (is_child_of node) nodes.

(** The list comprehension of the "Topic Tree" column:
    [[n for n in tree_nodes if n.get("parent_id") is None]]. *)
Definition root_nodes (nodes : list Node.t) : list Node.t :=
  filter is_root nodes.

(** The node looked up for the "Full Transcript" panel:
    [next((n for n in tree_nodes if n["id"] == selected_node), None)]. *)
Definition full_transcript (s : session_state) : option Node.t :=
  match selected_node s with
  | Some nid => find (fun n => Node.id n =? nid) (tree_nodes s)
  | None => None
  end.

(* ================================================================== *)
(** ** Vocabulary for the properties of whole sessions *)

(** The exception that reading the decision out of the reply raises in
    [process_recording], if any. *)
Definition reply_fault (reply : chat_reply) : option exn :=
  match reply with
  | Failed => None
  | Parsed v =>
      match getitem v k_topic_changed with
      | inl e => Some e
      | inr x =>
          if truthy x then
            match getitem v k_topic_label with
            | inl e => Some e
            | inr _ => None
            end
          else None
      end
  end.

(** The transcript that processing [r] in the session [s] adds to the log:
    that of an accepted recording whose processing returns normally. *)
Definition logged (r : recording) (s : session_state) : option pystr :=
  match process_recording (Some r) s with
  | Returned _ _ =>
      if accepted (transcription r) then transcription r else None
  | Raised _ _ => None
  end.

Fixpoint log_of (rs : list recording) (s : session_state) : list pystr :=
  match rs with
  | [] => []
  | r :: rest =>
      match logged r s with Some u => [u] | None => [] end
      ++ log_of rest (state_of (process_recording (Some r) s))
  end.

(** [n'] is [n] with some text added at the end. *)
Definition extends (n n' : Node.t) : Prop :=
  Node.id n' = Node.id n
  /\ Node.label n' = Node.label n
  /\ Node.parent_id n' = Node.parent_id n
  /\ Node.children n' = Node.children n
  /\ exists extra, Node.text n' = Node.text n ++ extra.

(** An accepted recording that continues the active topic once something
    has been logged: the classifier call fails, or returns a false
    [topic_changed]. *)
Definition keeps_topic (r : recording) (u : pystr) : Prop :=
  transcription r = Some u /\ accepted (Some u) = true
  /\ (completion r = Failed
      \/ exists v x, completion r = Parsed v
                     /\ getitem v k_topic_changed = inr x
                     /\ truthy x = false).

(** What the keys outside the tree hold in a running session. *)
Record coherent (s : session_state) : Prop := mk_coherent {
  coherent_text : current_topic_text s = [];
  coherent_label :
    current_topic_label s = last (map Node.label (tree_nodes s)) PyNone;
  coherent_selected :
    forall nid, selected_node s = Some nid -> nid < node_counter s
}.

(* ================================================================== *)
(** ** The definitions at work *)

Example strip_example :
  strip (str "  hi there ") = str "hi there"
  /\ strip (32 :: 9 :: 10 :: 160 :: 8232 :: nil)%N = [].
Proof. split; reflexivity. Qed.

Example getitem_examples :
  getitem (PyDict [(k_topic_changed, PyInt 0)]) k_topic_changed = inr (PyInt 0)
  /\ getitem (PyDict [(k_topic_changed, PyInt 0)]) k_topic_label
     = inl (KeyError k_topic_label)
  /\ getitem (PyList [PyBool true]) k_topic_changed = inl TypeError.
Proof. repeat split. Qed.

Example truthy_examples :
  truthy (PyStr (str "false")) = true
  /\ truthy (PyInt 0) = false
  /\ truthy (PyFloat (S754_zero true)) = false
  /\ truthy (PyFloat S754_nan) = true
  /\ truthy (PyDict []) = false.
Proof. repeat split. Qed.

(** A label with a single surrogate: the node, the pointer, the counter and
    the label are written, then [st.info] raises and the log is not. *)
Example surrogate_label_raises :
  process_recording (Some (decided (str "x") true lone_surrogate)) initial
  = Raised UnicodeEncodeError
      (mk_state [Node.mk 0 lone_surrogate (str "x") None []] (Some 0) [] 1 []
         lone_surrogate None None)
  /\ encodable (PyList [lone_surrogate]) = true.
Proof. split; reflexivity. Qed.

(** A recording with the id of the last one is not processed again. *)
Example on_audio_same_id :
  let a := decided hello true (PyStr (str "A")) in
  let s1 := handle (Recorded a) initial in
  tree_nodes s1 = [Node.mk 0 (PyStr (str "A")) hello None []]
  /\ last_audio_id s1 = Some 0
  /\ handle (Recorded a) s1 = s1.
Proof. repeat split. Qed.

(* ================================================================== *)
(** ** White space and acceptance *)

Lemma lstrip_whitespace u : whitespace_only u -> lstrip u = [].
Proof.
  induction 1 as [|c u Hc _ IH]; simpl.
  - reflexivity.
  - now rewrite Hc.
Qed.

Lemma lstrip_nil_whitespace u : lstrip u = [] -> whitespace_only u.
Proof.
  induction u as [|c u IH]; simpl; intros H.
  - constructor.
  - destruct (is_space c) eqn:Hc; [|discriminate].
    constructor; [exact Hc | exact (IH H)].
Qed.

Lemma lstrip_head u c v : lstrip u = c :: v -> is_space c = false.
Proof.
  induction u as [|d u IH]; simpl; [discriminate|].
  destruct (is_space d) eqn:Hd; auto.
  intros H; injection H as -> _; exact Hd.
Qed.

Lemma strip_nil_iff u : strip u = [] <-> whitespace_only u.
Proof.
  unfold strip, rstrip. split.
  - intros H.
    assert (Hr : lstrip (rev (lstrip u)) = []).
    { destruct (lstrip (rev (lstrip u))); [reflexivity|].
      apply (f_equal (@length N)) in H. rewrite length_rev in H. discriminate. }
    apply lstrip_nil_whitespace in Hr.
    destruct (lstrip u) as [|c v] eqn:Hu.
    + now apply lstrip_nil_whitespace.
    + exfalso. apply lstrip_head in Hu.
      unfold whitespace_only in Hr. rewrite Forall_forall in Hr.
      assert (Hc : is_space c = true) by (apply Hr, in_rev; rewrite rev_involutive; now left).
      congruence.
  - intros H. now rewrite (lstrip_whitespace H).
Qed.

(** A transcript is rejected exactly when transcription failed or the text
    is empty or white space only. *)
Lemma accepted_false_iff t :
  accepted t = false <-> t = None \/ exists u, t = Some u /\ whitespace_only u.
Proof.
  destruct t as [u|]; simpl.
  - split.
    + intros H. right. exists u. split; [reflexivity|].
      apply andb_false_iff in H. destruct H as [H|H].
      * apply negb_false_iff, Nat.eqb_eq in H.
        destruct u; [constructor|discriminate].
      * apply Nat.ltb_ge in H. apply strip_nil_iff.
        destruct (strip u); [reflexivity|simpl in H; lia].
    + intros [H|[v [Hv Hw]]]; [discriminate|]. injection Hv as <-.
      apply strip_nil_iff in Hw. rewrite Hw. simpl. apply andb_false_r.
  - split; auto.
Qed.

(* ================================================================== *)
(** ** What [process_recording] does, case by case *)

Lemma after_change_logs u s lbl :
  after_change u s lbl
  = set_conversation_history (conversation_history s ++ [u])
      (changed_state u s lbl).
Proof. reflexivity. Qed.

Lemma after_continue_logs u s :
  after_continue u s
  = set_conversation_history (conversation_history s ++ [u])
      (continued_state u s).
Proof. reflexivity. Qed.

Section ProcessRecording.

Variable r : recording.
Variable u : pystr.
Variable s : session_state.
Hypothesis Hheard : transcription r = Some u.

Lemma process_rejected :
  accepted (Some u) = false ->
  process_recording (Some r) s = Returned tt s.
Proof.
  intros H. unfold process_recording, transcribe_audio.
  rewrite Hheard, H. reflexivity.
Qed.

Hypothesis Haccepted : accepted (Some u) = true.

Lemma process_no_decision e :
  getitem (topic_info r u s) k_topic_changed = inl e ->
  process_recording (Some r) s = Raised e s.
Proof.
  intros H. unfold process_recording, transcribe_audio.
  rewrite Hheard, Haccepted. unfold bind, gets, eval.
  unfold topic_info in H. rewrite H. reflexivity.
Qed.

Lemma process_no_label x e :
  getitem (topic_info r u s) k_topic_changed = inr x ->
  truthy x = true ->
  getitem (topic_info r u s) k_topic_label = inl e ->
  process_recording (Some r) s = Raised e s.
Proof.
  intros H Hx Hl. unfold process_recording, transcribe_audio.
  rewrite Hheard, Haccepted. unfold bind, gets, eval.
  unfold topic_info in H, Hl. rewrite H, Hx, Hl. reflexivity.
Qed.

(** A topic change: the tree, the pointer, the counter and the label are
    written, then the label is shown, then the log is written. *)
Lemma process_changed lbl :
  says_changed r u s lbl ->
  process_recording (Some r) s
  = if encodable lbl
    then Returned tt (after_change u s lbl)
    else Raised UnicodeEncodeError (changed_state u s lbl).
Proof.
  intros [x [H [Hx Hl]]]. unfold process_recording, transcribe_audio.
  rewrite Hheard, Haccepted. unfold bind, gets, eval.
  unfold topic_info in H, Hl. rewrite H, Hx, Hl.
  cbn [add_node bind gets modify ret Node.id]. unfold bind, gets, modify, ret.
  cbn - [encodable]. unfold st_info.
  destruct (encodable lbl); reflexivity.
Qed.

(** A continuation: the text is appended, then the current label is shown,
    then the log is written. *)
Lemma process_continue :
  says_continue r u s ->
  process_recording (Some r) s
  = if encodable (current_topic_label s)
    then Returned tt (after_continue u s)
    else Raised UnicodeEncodeError (continued_state u s).
Proof.
  intros [x [H Hx]]. unfold process_recording, transcribe_audio.
  rewrite Hheard, Haccepted. unfold bind, gets, eval.
  unfold topic_info in H. rewrite H, Hx.
  unfold update_current_node, after_continue, continued_state, continued_nodes,
    bind, gets, st_info.
  destruct s as [nodes cp hist cnt txt lbl sel last]; cbn - [encodable].
  destruct nodes as [|n nodes]; cbn - [encodable].
  - destruct (encodable lbl); reflexivity.
  - destruct cp; cbn - [encodable]; destruct (encodable lbl); reflexivity.
Qed.

Lemma process_changed_tree lbl :
  says_changed r u s lbl ->
  tree_nodes (state_of (process_recording (Some r) s))
  = tree_nodes s ++ [Node.mk (node_counter s) lbl u (current_parent s) []]
  /\ current_parent (state_of (process_recording (Some r) s))
     = Some (node_counter s)
  /\ node_counter (state_of (process_recording (Some r) s))
     = node_counter s + 1.
Proof.
  intros H. rewrite (process_changed H).
  destruct (encodable lbl); simpl; auto.
Qed.

Lemma process_continue_tree :
  says_continue r u s ->
  tree_nodes (state_of (process_recording (Some r) s)) = continued_nodes u s
  /\ current_parent (state_of (process_recording (Some r) s))
     = current_parent s
  /\ node_counter (state_of (process_recording (Some r) s)) = node_counter s.
Proof.
  intros H. rewrite (process_continue H).
  destruct (encodable (current_topic_label s)); simpl; auto.
Qed.

End ProcessRecording.

(** The two decisions exclude each other, and a change has one label. *)
Lemma says_changed_not_continue r u s lbl :
  says_changed r u s lbl -> says_continue r u s -> False.
Proof.
  intros [x [H [Hx _]]] [y [K Hy]]. congruence.
Qed.

Lemma says_changed_label r u s l1 l2 :
  says_changed r u s l1 -> says_changed r u s l2 -> l1 = l2.
Proof.
  intros [x [_ [_ H]]] [y [_ [_ K]]]. congruence.
Qed.

(** Every call of the controller leaves the session as it was, or opens a
    topic, or continues the active one; in the last two cases the log is
    written unless showing the label raised. *)
Lemma process_cases r s :
  process_recording (Some r) s = Returned tt s
  \/ (exists e, process_recording (Some r) s = Raised e s)
  \/ (exists u lbl,
        transcription r = Some u /\ accepted (Some u) = true
        /\ says_changed r u s lbl
        /\ process_recording (Some r) s
           = if encodable lbl
             then Returned tt (after_change u s lbl)
             else Raised UnicodeEncodeError (changed_state u s lbl))
  \/ (exists u,
        transcription r = Some u /\ accepted (Some u) = true
        /\ says_continue r u s
        /\ process_recording (Some r) s
           = if encodable (current_topic_label s)
             then Returned tt (after_continue u s)
             else Raised UnicodeEncodeError (continued_state u s)).
Proof.
  destruct (transcription r) as [u|] eqn:Hu.
  2:{ left. unfold process_recording, transcribe_audio. now rewrite Hu. }
  destruct (accepted (Some u)) eqn:Ha.
  2:{ left. exact (@process_rejected r u s Hu Ha). }
  destruct (getitem (topic_info r u s) k_topic_changed) as [e|x] eqn:Hc.
  { right. left. exists e. exact (@process_no_decision r u s Hu Ha e Hc). }
  destruct (truthy x) eqn:Hx.
  - destruct (getitem (topic_info r u s) k_topic_label) as [e|lbl] eqn:Hl.
    + right. left. exists e.
      exact (@process_no_label r u s Hu Ha x e Hc Hx Hl).
    + right. right. left. exists u, lbl.
      assert (Hs : says_changed r u s lbl) by (exists x; auto).
      repeat split; auto. now apply process_changed.
  - right. right. right. exists u.
    assert (Hs : says_continue r u s) by (exists x; auto).
    repeat split; auto. now apply process_continue.
Qed.

(** The session after a call is the one before it, or one of the four that
    a decision leads to. *)
Lemma process_states r s :
  state_of (process_recording (Some r) s) = s
  \/ (exists u lbl,
        transcription r = Some u /\ accepted (Some u) = true
        /\ says_changed r u s lbl
        /\ (state_of (process_recording (Some r) s) = after_change u s lbl
            \/ state_of (process_recording (Some r) s)
               = changed_state u s lbl))
  \/ (exists u,
        transcription r = Some u /\ accepted (Some u) = true
        /\ says_continue r u s
        /\ (state_of (process_recording (Some r) s) = after_continue u s
            \/ state_of (process_recording (Some r) s)
               = continued_state u s)).
Proof.
  destruct (process_cases r s)
    as [H|[[e H]|[[u [lbl [Hu [Ha [Hs H]]]]]|[u [Hu [Ha [Hs H]]]]]]].
  - left. now rewrite H.
  - left. now rewrite H.
  - right. left. exists u, lbl. repeat split; auto.
    rewrite H. destruct (encodable lbl); auto.
  - right. right. exists u. repeat split; auto.
    rewrite H. destruct (encodable (current_topic_label s)); auto.
Qed.

(* ================================================================== *)
(** ** The loop of [update_current_node] *)

Lemma append_to_first_length cid extra nodes :
  length (append_to_first cid extra nodes) = length nodes.
Proof.
  induction nodes as [|n nodes IH]; simpl; [reflexivity|].
  destruct (Node.id n =? cid); simpl; congruence.
Qed.

Lemma append_to_first_ids cid extra nodes :
  map Node.id (append_to_first cid extra nodes) = map Node.id nodes.
Proof.
  induction nodes as [|n nodes IH]; simpl; [reflexivity|].
  destruct (Node.id n =? cid); simpl; congruence.
Qed.

Lemma append_to_first_labels cid extra nodes :
  map Node.label (append_to_first cid extra nodes) = map Node.label nodes.
Proof.
  induction nodes as [|n nodes IH]; simpl; [reflexivity|].
  destruct (Node.id n =? cid); simpl; congruence.
Qed.

Lemma append_to_first_nth cid extra nodes i n :
  nth_error (append_to_first cid extra nodes) i = Some n ->
  exists n0, nth_error nodes i = Some n0
             /\ Node.id n = Node.id n0
             /\ Node.parent_id n = Node.parent_id n0.
Proof.
  revert i. induction nodes as [|m nodes IH]; intros i; simpl.
  - destruct i; discriminate.
  - destruct (Node.id m =? cid).
    + destruct i; simpl.
      * intros H. injection H as <-. exists m. auto.
      * intros H. exists n. auto.
    + destruct i; simpl.
      * intros H. exists n. auto.
      * apply IH.
Qed.

(** When some node carries the id, the loop rewrites the text of the first
    such node and nothing else. *)
Lemma append_to_first_split cid extra nodes :
  (exists n, In n nodes /\ Node.id n = cid) ->
  exists before n after,
    nodes = before ++ n :: after
    /\ Node.id n = cid
    /\ (forall m, In m before -> Node.id m <> cid)
    /\ append_to_first cid extra nodes
       = before
         ++ Node.mk (Node.id n) (Node.label n) (Node.text n ++ extra)
              (Node.parent_id n) (Node.children n)
         :: after.
Proof.
  induction nodes as [|m nodes IH]; intros [n [Hin Hid]].
  - destruct Hin.
  - simpl. destruct (Node.id m =? cid) eqn:Hm.
    + apply Nat.eqb_eq in Hm. exists [], m, nodes. simpl.
      split; [reflexivity|]. split; [exact Hm|]. split; [intros ? []|reflexivity].
    + apply Nat.eqb_neq in Hm.
      destruct Hin as [->|Hin]; [contradiction|].
      destruct IH as [before [n' [after [H1 [H2 [H3 H4]]]]]].
      { exists n. auto. }
      exists (m :: before), n', after. simpl.
      split; [now rewrite H1|]. split; [exact H2|]. split.
      * intros k [<-|Hk]; auto.
      * now rewrite H4.
Qed.

(** When no node carries the id, the loop changes nothing. *)
Lemma append_to_first_miss cid extra nodes :
  (forall n, In n nodes -> Node.id n <> cid) ->
  append_to_first cid extra nodes = nodes.
Proof.
  induction nodes as [|m nodes IH]; intros H; simpl; [reflexivity|].
  destruct (Node.id m =? cid) eqn:Hm.
  - apply Nat.eqb_eq in Hm. exfalso. apply (H m); simpl; auto.
  - rewrite IH; auto. intros n Hn. apply H. now right.
Qed.

Lemma append_to_first_last old n extra :
  (forall m, In m old -> Node.id m <> Node.id n) ->
  append_to_first (Node.id n) extra (old ++ [n])
  = old ++ [Node.mk (Node.id n) (Node.label n) (Node.text n ++ extra)
              (Node.parent_id n) (Node.children n)].
Proof.
  induction old as [|m old IH]; intros H; simpl.
  - now rewrite Nat.eqb_refl.
  - destruct (Nat.eqb_spec (Node.id m) (Node.id n)) as [Heq|_].
    + exfalso. apply (H m); simpl; auto.
    + rewrite IH; auto. intros k Hk. apply H. now right.
Qed.

Lemma continued_nodes_ids u s :
  map Node.id (continued_nodes u s) = map Node.id (tree_nodes s).
Proof.
  unfold continued_nodes.
  destruct (tree_nodes s) as [|n nodes]; [reflexivity|].
  destruct (current_parent s); [|reflexivity].
  apply append_to_first_ids.
Qed.

Lemma continued_nodes_labels u s :
  map Node.label (continued_nodes u s) = map Node.label (tree_nodes s).
Proof.
  unfold continued_nodes.
  destruct (tree_nodes s) as [|n nodes]; [reflexivity|].
  destruct (current_parent s); [|reflexivity].
  apply append_to_first_labels.
Qed.

Lemma continued_nodes_nth u s i n :
  nth_error (continued_nodes u s) i = Some n ->
  exists n0, nth_error (tree_nodes s) i = Some n0
             /\ Node.id n = Node.id n0
             /\ Node.parent_id n = Node.parent_id n0.
Proof.
  unfold continued_nodes.
  destruct (tree_nodes s) as [|m nodes] eqn:Hn.
  - intros H. exists n. auto.
  - destruct (current_parent s).
    + apply append_to_first_nth.
    + intros H. exists n. auto.
Qed.

Lemma continued_nodes_empty u s :
  tree_nodes s = [] -> continued_nodes u s = [].
Proof. intros H. unfold continued_nodes. now rewrite H. Qed.

(* ================================================================== *)
(** ** The chain invariant *)

Lemma chain_size s : chain s -> length (tree_nodes s) = node_counter s.
Proof.
  intros H. rewrite <- (length_map Node.id), (chain_ids H). apply length_seq.
Qed.

Lemma chain_initial : chain initial.
Proof.
  split; simpl; auto. intros [|i] n; discriminate.
Qed.

Lemma chain_reset_all s : chain (reset_all s).
Proof.
  split; simpl; auto. intros [|i] n; discriminate.
Qed.

Lemma chain_view nid s : chain s -> chain (view nid s).
Proof.
  intros H. unfold view.
  destruct (existsb _ _); [|exact H].
  destruct H. split; auto.
Qed.

Lemma chain_set_last_audio_id v s : chain s -> chain (set_last_audio_id v s).
Proof. intros []. split; auto. Qed.

Lemma chain_set_conversation_history v s :
  chain s -> chain (set_conversation_history v s).
Proof. intros []. split; auto. Qed.

Lemma chain_changed_state u s lbl : chain s -> chain (changed_state u s lbl).
Proof.
  intros H. pose proof (chain_size H) as Hlen.
  destruct H as [Hids Hpar Hact]. split; simpl.
  - rewrite map_app, Hids, Nat.add_1_r, seq_S. reflexivity.
  - intros i n Hn.
    destruct (Nat.lt_ge_cases i (length (tree_nodes s))) as [Hlt|Hge].
    + rewrite nth_error_app1 in Hn by exact Hlt. eauto.
    + rewrite nth_error_app2 in Hn by exact Hge.
      destruct (i - length (tree_nodes s)) as [|k] eqn:Hk; simpl in Hn.
      * injection Hn as <-. simpl. rewrite Hact.
        f_equal. lia.
      * destruct k; discriminate.
  - now rewrite Nat.add_1_r.
Qed.

Lemma chain_continued_state u s : chain s -> chain (continued_state u s).
Proof.
  intros [Hids Hpar Hact]. split; simpl; auto.
  - now rewrite continued_nodes_ids.
  - intros i n Hn. apply continued_nodes_nth in Hn.
    destruct Hn as [n0 [H0 [_ ->]]]. eauto.
Qed.

Lemma chain_process_recording r s :
  chain s -> chain (state_of (process_recording (Some r) s)).
Proof.
  intros H.
  destruct (process_states r s)
    as [->|[[u [lbl [_ [_ [_ [->| ->]]]]]]|[u [_ [_ [_ [->| ->]]]]]]];
    auto using chain_changed_state, chain_continued_state.
  - rewrite after_change_logs.
    now apply chain_set_conversation_history, chain_changed_state.
  - rewrite after_continue_logs.
    now apply chain_set_conversation_history, chain_continued_state.
Qed.

Lemma chain_on_audio a s : chain s -> chain (state_of (on_audio (Some a) s)).
Proof.
  intros H. unfold on_audio, bind, gets.
  match goal with |- context [if ?b then _ else _] => destruct b end; simpl; auto.
  change (chain (state_of (process_recording (Some a)
                             (set_last_audio_id (Some (rec_id a)) s)))).
  apply chain_process_recording, chain_set_last_audio_id, H.
Qed.

Lemma reachable_chain s : reachable s -> chain s.
Proof.
  induction 1 as [|e s _ IH].
  - exact chain_initial.
  - destruct e; simpl.
    + now apply chain_on_audio.
    + now apply chain_process_recording.
    + apply chain_reset_all.
    + now apply chain_view.
Qed.

Lemma chain_ingest_all rs s : chain s -> chain (ingest_all rs s).
Proof.
  revert s. induction rs as [|r rs IH]; intros s H; [exact H|].
  unfold ingest_all. cbn [fold_left].
  change (fold_left _ rs ?s0) with (ingest_all rs s0).
  now apply IH, chain_process_recording.
Qed.

(** In a chain a node sits at the position given by its id. *)
Lemma chain_index s n :
  chain s -> In n (tree_nodes s) ->
  Node.id n < node_counter s /\ nth_error (tree_nodes s) (Node.id n) = Some n.
Proof.
  intros H Hin. apply In_nth_error in Hin. destruct Hin as [i Hi].
  pose proof (map_nth_error Node.id _ _ Hi) as Hm.
  rewrite (chain_ids H) in Hm.
  assert (Hlt : i < node_counter s).
  { rewrite <- (length_seq (node_counter s) 0). apply nth_error_Some. congruence. }
  rewrite nth_error_seq in Hm.
  destruct (Nat.ltb_spec i (node_counter s)); [|lia].
  simpl in Hm. injection Hm as Hm. rewrite <- Hm. auto.
Qed.

(** In a chain every node's parent is the id before its own. *)
Lemma chain_node s n :
  chain s -> In n (tree_nodes s) ->
  Node.id n < node_counter s /\ Node.parent_id n = previous (Node.id n).
Proof.
  intros H Hin. destruct (@chain_index s n H Hin) as [Hlt Hi].
  split; [exact Hlt|]. exact (chain_parents H _ Hi).
Qed.

(** In a chain every id below the counter is found by the lookup by id. *)
Lemma chain_find s p :
  chain s -> p < node_counter s ->
  exists n, find (fun n => Node.id n =? p) (tree_nodes s) = Some n
            /\ Node.id n = p.
Proof.
  intros Hch Hlt.
  assert (Hseq : In p (map Node.id (tree_nodes s))).
  { rewrite (chain_ids Hch). apply in_seq. lia. }
  apply in_map_iff in Hseq. destruct Hseq as [n [Hid Hn]].
  destruct (find (fun n => Node.id n =? p) (tree_nodes s)) as [m|] eqn:Hf.
  - exists m. split; [reflexivity|].
    apply find_some in Hf. now apply Nat.eqb_eq.
  - exfalso. apply (find_none _ _ Hf) in Hn. simpl in Hn.
    apply Nat.eqb_neq in Hn. contradiction.
Qed.

(** A chain without nodes has no active pointer and its counter is 0. *)
Lemma chain_empty s :
  chain s -> tree_nodes s = [] ->
  current_parent s = None /\ node_counter s = 0.
Proof.
  intros H Hnodes. pose proof (chain_size H) as Hl.
  rewrite Hnodes in Hl. simpl in Hl.
  rewrite (chain_active H), <- Hl. auto.
Qed.

(* ================================================================== *)
(** ** The keys outside the tree *)

Lemma coherent_initial : coherent initial.
Proof. split; simpl; auto. discriminate. Qed.

Lemma coherent_reset_all s : coherent s -> coherent (reset_all s).
Proof. intros [Ht Hl Hs]. split; simpl; auto. discriminate. Qed.

Lemma coherent_set_last_audio_id v s :
  coherent s -> coherent (set_last_audio_id v s).
Proof. intros []. split; auto. Qed.

Lemma coherent_set_conversation_history v s :
  coherent s -> coherent (set_conversation_history v s).
Proof. intros []. split; auto. Qed.

Lemma coherent_view nid s : chain s -> coherent s -> coherent (view nid s).
Proof.
  intros Hch Hco. unfold view.
  destruct (existsb _ _) eqn:Hex; [|exact Hco].
  destruct Hco as [Ht Hl Hs]. split; simpl; auto.
  intros k Hk. injection Hk as <-.
  apply existsb_exists in Hex. destruct Hex as [n [Hn Hid]].
  apply Nat.eqb_eq in Hid. subst nid.
  now destruct (@chain_node s n Hch Hn).
Qed.

Lemma coherent_changed_state u s lbl :
  coherent s -> coherent (changed_state u s lbl).
Proof.
  intros [Ht Hl Hs]. split; simpl; auto.
  - rewrite map_app. cbn [map]. now rewrite last_last.
  - intros k Hk. apply Hs in Hk. lia.
Qed.

Lemma coherent_continued_state u s :
  coherent s -> coherent (continued_state u s).
Proof.
  intros [Ht Hl Hs]. split; simpl; auto.
  now rewrite continued_nodes_labels.
Qed.

Lemma coherent_process_recording r s :
  coherent s -> coherent (state_of (process_recording (Some r) s)).
Proof.
  intros H.
  destruct (process_states r s)
    as [->|[[u [lbl [_ [_ [_ [->| ->]]]]]]|[u [_ [_ [_ [->| ->]]]]]]];
    auto using coherent_changed_state, coherent_continued_state.
  - rewrite after_change_logs.
    now apply coherent_set_conversation_history, coherent_changed_state.
  - rewrite after_continue_logs.
    now apply coherent_set_conversation_history, coherent_continued_state.
Qed.

Lemma reachable_coherent s : reachable s -> coherent s.
Proof.
  induction 1 as [|e s Hreach IH].
  - exact coherent_initial.
  - destruct e; cbn [handle].
    + unfold on_audio, bind, gets.
      match goal with |- context [if ?b then _ else _] => destruct b end;
        simpl; auto.
      change (coherent (state_of (process_recording (Some a)
                                   (set_last_audio_id (Some (rec_id a)) s)))).
      now apply coherent_process_recording, coherent_set_last_audio_id.
    + now apply coherent_process_recording.
    + now apply coherent_reset_all.
    + apply coherent_view; auto. now apply reachable_chain.
Qed.

(** A reachable session without nodes: no pointer, counter 0, and no
    current label. *)
Lemma reachable_no_node s :
  reachable s -> tree_nodes s = [] ->
  current_parent s = None /\ node_counter s = 0
  /\ current_topic_label s = PyNone.
Proof.
  intros Hreach Hnodes.
  destruct (chain_empty (reachable_chain Hreach) Hnodes) as [Hp Hc].
  split; [exact Hp|]. split; [exact Hc|].
  rewrite (coherent_label (reachable_coherent Hreach)), Hnodes. reflexivity.
Qed.

Lemma reachable_one_topic : reachable one_topic.
Proof. apply reach_step, reach_initial. Qed.

Lemma reachable_two_topics : reachable two_topics.
Proof. apply reach_step, reachable_one_topic. Qed.

Lemma reachable_unlogged_topic : reachable unlogged_topic.
Proof. apply reach_step, reach_initial. Qed.

(** After a failed classifier call the decision is the fallback dict. *)
Lemma failed_topic_info r u s :
  completion r = Failed -> topic_info r u s = fallback (conversation_history s).
Proof. intros H. unfold topic_info. now rewrite H. Qed.

Lemma failed_says_changed r u s :
  completion r = Failed -> conversation_history s = [] ->
  says_changed r u s new_topic.
Proof.
  intros H Hlog. exists (PyBool true).
  rewrite (@failed_topic_info r u s H), Hlog. repeat split.
Qed.

Lemma failed_says_continue r u s :
  completion r = Failed -> conversation_history s <> [] ->
  says_continue r u s.
Proof.
  intros H Hlog. exists (PyBool false).
  rewrite (@failed_topic_info r u s H).
  destruct (conversation_history s); [contradiction|]. split; reflexivity.
Qed.

Lemma decided_says_changed u lbl s : says_changed (decided u true lbl) u s lbl.
Proof. exists (PyBool true). repeat split. Qed.

Lemma decided_says_continue u lbl s : says_continue (decided u false lbl) u s.
Proof. exists (PyBool false). repeat split. Qed.

(* ================================================================== *)
(** ** Empty utterances *)

(** C8. An utterance that is empty or consists of white space only is
    dropped by [process_recording]: the call returns normally and the
    session (nodes, node texts, log, active pointer, current label and all
    other keys) is exactly what it was, whatever the classifier would have
    answered. *)
Theorem empty_utterance_is_ignored (r : recording) (u : pystr)
    (s : session_state) :
  transcription r = Some u ->
  whitespace_only u ->
  process_recording (Some r) s = Returned tt s.
Proof.
  intros Hu Hw. apply (@process_rejected r u s Hu).
  apply accepted_false_iff. right. exists u. auto.
Qed.

Lemma empty_utterance_is_ignored_witness :
  process_recording
    (Some (decided (32 :: 9 :: 10 :: nil)%N true (PyStr (str "A")))) one_topic
  = Returned tt one_topic.
Proof.
  apply (@empty_utterance_is_ignored _ (32 :: 9 :: 10 :: nil)%N one_topic).
  - reflexivity.
  - repeat constructor.
Defined.

(* ================================================================== *)
(** ** The first utterance of a session *)

(** C1, as stated, fails: in the initial session (empty log) the accepted
    utterance "hello", for which the classifier returns
    [topic_changed = false], is processed without creating any node. *)
Lemma first_utterance_without_topic :
  let r := decided hello false (PyStr (str "Greeting")) in
  let s' := state_of (process_recording (Some r) initial) in
  conversation_history initial = []
  /\ accepted (transcription r) = true
  /\ process_recording (Some r) initial
     = Returned tt (mk_state [] None [hello] 0 [] PyNone None None)
  /\ ~ (exists n, In n (tree_nodes s') /\ Node.parent_id n = None).
Proof.
  repeat split. intros [n [Hin _]]. exact Hin.
Qed.

(** C1, amended. In a reachable session whose log is empty and in which no
    node exists yet, an accepted utterance for which the classifier call
    fails, or returns a true [topic_changed] together with a label,
    produces exactly one node, node 0, with [parent_id = None], and the
    call returns normally when that label can be shown; when the
    classifier returns a false [topic_changed] the call returns normally,
    no node is produced, and the utterance is only logged. *)
Theorem first_utterance_opens_topic (s : session_state) (r : recording)
    (u : pystr) :
  reachable s ->
  conversation_history s = [] ->
  tree_nodes s = [] ->
  transcription r = Some u ->
  accepted (Some u) = true ->
  (forall lbl,
     (completion r = Failed /\ lbl = new_topic) \/ says_changed r u s lbl ->
     tree_nodes (state_of (process_recording (Some r) s))
     = [Node.mk 0 lbl u None []]
     /\ (encodable lbl = true ->
         process_recording (Some r) s = Returned tt (after_change u s lbl)))
  /\ (says_continue r u s ->
      exists s',
        process_recording (Some r) s = Returned tt s'
        /\ tree_nodes s' = []
        /\ current_parent s' = None
        /\ node_counter s' = 0
        /\ conversation_history s' = [u]).
Proof.
  intros Hreach Hlog Hnodes Hu Ha.
  destruct (reachable_no_node Hreach Hnodes) as [Hcur [Hcnt Hlbl]].
  split.
  - intros lbl Hdec.
    assert (Hch : says_changed r u s lbl).
    { destruct Hdec as [[Hf ->]|Hch]; [|exact Hch].
      now apply failed_says_changed. }
    split.
    + destruct (@process_changed_tree r u s Hu Ha lbl Hch) as [Ht _].
      now rewrite Ht, Hnodes, Hcur, Hcnt.
    + intros Henc. now rewrite (@process_changed r u s Hu Ha lbl Hch), Henc.
  - intros Hco. exists (after_continue u s).
    rewrite (@process_continue r u s Hu Ha Hco), Hlbl. simpl.
    rewrite (@continued_nodes_empty u s Hnodes), Hlog. auto.
Qed.

Lemma first_utterance_opens_topic_witness :
  tree_nodes (state_of (process_recording (Some (undecided hello)) initial))
  = [Node.mk 0 new_topic hello None []]
  /\ (encodable new_topic = true ->
      process_recording (Some (undecided hello)) initial
      = Returned tt (after_change hello initial new_topic)).
Proof.
  apply (@first_utterance_opens_topic initial (undecided hello) hello).
  - exact reach_initial.
  - reflexivity.
  - reflexivity.
  - reflexivity.
  - reflexivity.
  - left. split; reflexivity.
Defined.

(* ================================================================== *)
(** ** Classifier failure and malformed replies *)

(** C3, as stated, fails: an empty log does not mean that the session has
    no node. After the first utterance "x" was given a label that
    [st.info] cannot show, node 0 exists and the log is still empty; in
    that session a failed classifier call on "hello" creates node 1 under
    node 0, not a root. *)
Lemma failed_call_nests_under_unlogged_topic :
  let s' :=
    state_of (process_recording (Some (undecided hello)) unlogged_topic) in
  reachable unlogged_topic
  /\ conversation_history unlogged_topic = []
  /\ tree_nodes unlogged_topic = [Node.mk 0 lone_surrogate (str "x") None []]
  /\ tree_nodes s'
     = [ Node.mk 0 lone_surrogate (str "x") None [];
         Node.mk 1 new_topic hello (Some 0) [] ]
  /\ ~ (exists n, tree_nodes s' = tree_nodes unlogged_topic ++ [n]
                  /\ Node.parent_id n = None).
Proof.
  split; [exact reachable_unlogged_topic|].
  repeat split. intros [n [Hn Hp]].
  injection Hn as <-. discriminate.
Qed.

(** C3, amended. When the classifier call fails the decision is the
    fallback: [topic_changed] is "the log is empty" and [topic_label] is
    "New Topic". With an empty log the call returns normally and appends
    exactly one node, labelled "New Topic", with the utterance as text and
    the active pointer as parent; in a reachable session without nodes
    that is node 0 with [parent_id = None], in particular for
    [ingest("hello")] in a fresh or reset session. With a log that is not
    empty the utterance continues the active topic. *)
Theorem classifier_failure_fallback (r : recording) (u : pystr)
    (s : session_state) :
  transcription r = Some u ->
  accepted (Some u) = true ->
  completion r = Failed ->
  getitem (topic_info r u s) k_topic_changed
    = inr (PyBool (length (conversation_history s) =? 0))
  /\ getitem (topic_info r u s) k_topic_label = inr new_topic
  /\ (conversation_history s = [] ->
      exists s',
        process_recording (Some r) s = Returned tt s'
        /\ tree_nodes s'
           = tree_nodes s
             ++ [Node.mk (node_counter s) new_topic u (current_parent s) []]
        /\ conversation_history s' = [u]
        /\ (reachable s -> tree_nodes s = [] ->
            tree_nodes s' = [Node.mk 0 new_topic u None []]))
  /\ (conversation_history s <> [] ->
      tree_nodes (state_of (process_recording (Some r) s))
      = continued_nodes u s
      /\ (encodable (current_topic_label s) = true ->
          process_recording (Some r) s = Returned tt (after_continue u s))).
Proof.
  intros Hu Ha Hf.
  split; [now rewrite (@failed_topic_info r u s Hf)|].
  split; [now rewrite (@failed_topic_info r u s Hf)|].
  split.
  - intros Hlog. exists (after_change u s new_topic).
    split.
    { now rewrite (@process_changed r u s Hu Ha new_topic
                     (@failed_says_changed r u s Hf Hlog)). }
    split; [reflexivity|].
    split; [simpl; now rewrite Hlog|].
    intros Hreach Hnodes.
    destruct (reachable_no_node Hreach Hnodes) as [Hcur [Hcnt _]].
    simpl. now rewrite Hnodes, Hcur, Hcnt.
  - intros Hlog.
    pose proof (@failed_says_continue r u s Hf Hlog) as Hco.
    split.
    + now destruct (@process_continue_tree r u s Hu Ha Hco).
    + intros Henc. now rewrite (@process_continue r u s Hu Ha Hco), Henc.
Qed.

Lemma classifier_failure_fallback_witness :
  exists s',
    process_recording (Some (undecided hello)) initial = Returned tt s'
    /\ conversation_history s' = [hello]
    /\ tree_nodes s' = [Node.mk 0 new_topic hello None []].
Proof.
  destruct (@classifier_failure_fallback (undecided hello) hello initial
              eq_refl eq_refl eq_refl) as [_ [_ [H _]]].
  destruct (H eq_refl) as [s' [H1 [_ [H3 H4]]]].
  exists s'. split; [exact H1|]. split; [exact H3|].
  apply H4; [exact reach_initial | reflexivity].
Defined.

(** C2, as stated, fails: a reply that parses as JSON and carries neither
    field is not handled like a failed call. In the initial session, with
    the utterance "hello", the failed call opens the topic "New Topic",
    while the reply [{}] makes [process_recording] raise [KeyError]. *)
Lemma empty_reply_raises :
  process_recording (Some empty_reply) initial
  = Raised (KeyError k_topic_changed) initial
  /\ process_recording (Some (undecided hello)) initial
     = Returned tt (after_change hello initial new_topic)
  /\ transcription empty_reply = transcription (undecided hello)
  /\ process_recording (Some empty_reply) initial
     <> process_recording (Some (undecided hello)) initial.
Proof.
  repeat split. discriminate.
Qed.

(** C2, amended. Only a failing call gets the fallback decision; it is then
    applied like any decision, and [process_recording] returns normally
    when the log is empty, and also when it is not, provided the current
    label can be shown. A reply that was parsed is used as it is: when
    [topic_changed] cannot be read from it (the key is missing, or the
    reply is not an object) the exception leaves [process_recording] and
    the session is unchanged; the same happens when [topic_changed] is
    true and [topic_label] cannot be read; when [topic_changed] is false
    [topic_label] is not looked at and the utterance continues the active
    topic. *)
Theorem malformed_reply_is_not_a_failure (r : recording) (u : pystr)
    (s : session_state) :
  transcription r = Some u ->
  accepted (Some u) = true ->
  (completion r = Failed ->
   topic_info r u s = fallback (conversation_history s)
   /\ (conversation_history s = [] ->
       process_recording (Some r) s
       = Returned tt (after_change u s new_topic))
   /\ (conversation_history s <> [] ->
       encodable (current_topic_label s) = true ->
       process_recording (Some r) s = Returned tt (after_continue u s)))
  /\ (forall v e,
        completion r = Parsed v ->
        getitem v k_topic_changed = inl e ->
        process_recording (Some r) s = Raised e s)
  /\ (forall v x e,
        completion r = Parsed v ->
        getitem v k_topic_changed = inr x -> truthy x = true ->
        getitem v k_topic_label = inl e ->
        process_recording (Some r) s = Raised e s)
  /\ (forall v x,
        completion r = Parsed v ->
        getitem v k_topic_changed = inr x -> truthy x = false ->
        tree_nodes (state_of (process_recording (Some r) s))
        = continued_nodes u s
        /\ (encodable (current_topic_label s) = true ->
            process_recording (Some r) s = Returned tt (after_continue u s))).
Proof.
  intros Hu Ha. split; [|split; [|split]].
  - intros Hf. split; [now apply failed_topic_info|]. split.
    + intros Hlog.
      now rewrite (@process_changed r u s Hu Ha new_topic
                     (@failed_says_changed r u s Hf Hlog)).
    + intros Hlog Henc.
      now rewrite (@process_continue r u s Hu Ha
                     (@failed_says_continue r u s Hf Hlog)), Henc.
  - intros v e Hv He. apply (@process_no_decision r u s Hu Ha).
    unfold topic_info. now rewrite Hv.
  - intros v x e Hv Hx Ht He. apply (@process_no_label r u s Hu Ha x); auto;
      unfold topic_info; now rewrite Hv.
  - intros v x Hv Hx Ht.
    assert (Hco : says_continue r u s).
    { exists x. unfold topic_info. rewrite Hv. auto. }
    split.
    + now destruct (@process_continue_tree r u s Hu Ha Hco).
    + intros Henc. now rewrite (@process_continue r u s Hu Ha Hco), Henc.
Qed.

Lemma malformed_reply_is_not_a_failure_witness :
  process_recording (Some empty_reply) initial
  = Raised (KeyError k_topic_changed) initial.
Proof.
  destruct (@malformed_reply_is_not_a_failure empty_reply hello initial
              eq_refl eq_refl) as [_ [H _]].
  exact (H (PyDict []) (KeyError k_topic_changed) eq_refl eq_refl).
Defined.

(* ================================================================== *)
(** ** Continuation and topic change *)

Lemma ingest_changed u lbl s :
  accepted (Some u) = true ->
  encodable lbl = true ->
  process_recording (Some (decided u true lbl)) s
  = Returned tt (after_change u s lbl).
Proof.
  intros Ha Henc.
  rewrite (@process_changed (decided u true lbl) u s eq_refl Ha lbl
             (decided_says_changed u lbl s)).
  now rewrite Henc.
Qed.

Lemma ingest_continue u lbl s :
  accepted (Some u) = true ->
  encodable (current_topic_label s) = true ->
  process_recording (Some (decided u false lbl)) s
  = Returned tt (after_continue u s).
Proof.
  intros Ha Henc.
  rewrite (@process_continue (decided u false lbl) u s eq_refl Ha
             (decided_says_continue u lbl s)).
  now rewrite Henc.
Qed.

(** C4. When the classifier step yields [topic_changed = false] for an
    accepted utterance [u] and the active pointer is the id of a node of the
    tree, the session that [process_recording] leaves has the same number
    of nodes; the (first) node with that id has the old text followed by
    one space and [u] as its text and is otherwise the same, and every
    other node is unchanged. The call returns normally when the current
    label can be shown. *)
Theorem continuation_preserves_count (r : recording) (u : pystr)
    (s : session_state) (p : nat) :
  transcription r = Some u ->
  accepted (Some u) = true ->
  says_continue r u s ->
  current_parent s = Some p ->
  (exists n, In n (tree_nodes s) /\ Node.id n = p) ->
  let s' := state_of (process_recording (Some r) s) in
  length (tree_nodes s') = length (tree_nodes s)
  /\ (exists before n after,
        tree_nodes s = before ++ n :: after
        /\ Node.id n = p
        /\ (forall m, In m before -> Node.id m <> p)
        /\ tree_nodes s'
           = before
             ++ Node.mk (Node.id n) (Node.label n)
                  (Node.text n ++ str " " ++ u)
                  (Node.parent_id n) (Node.children n)
             :: after)
  /\ (encodable (current_topic_label s) = true ->
      process_recording (Some r) s = Returned tt s').
Proof.
  intros Hu Ha Hco Hp Hex s'.
  assert (Htree : tree_nodes s'
                  = append_to_first p (str " " ++ u) (tree_nodes s)).
  { subst s'. destruct (@process_continue_tree r u s Hu Ha Hco) as [Ht _].
    rewrite Ht. unfold continued_nodes. rewrite Hp.
    destruct (tree_nodes s) as [|m nodes] eqn:Hn; [|reflexivity].
    destruct Hex as [n [[] _]]. }
  split; [rewrite Htree; apply append_to_first_length|].
  split.
  - rewrite Htree. apply append_to_first_split. exact Hex.
  - intros Henc. subst s'.
    now rewrite (@process_continue r u s Hu Ha Hco), Henc.
Qed.

Lemma continuation_preserves_count_witness :
  let s' :=
    state_of (process_recording (Some (decided (str "there") false PyNone))
                one_topic) in
  tree_nodes one_topic = [Node.mk 0 (PyStr (str "A")) (str "hi") None []]
  /\ length (tree_nodes s') = 1
  /\ exists before n after,
       tree_nodes one_topic = before ++ n :: after
       /\ Node.id n = 0
       /\ (forall m, In m before -> Node.id m <> 0)
       /\ tree_nodes s'
          = before
            ++ Node.mk (Node.id n) (Node.label n)
                 (Node.text n ++ str " " ++ str "there")
                 (Node.parent_id n) (Node.children n)
            :: after.
Proof.
  split; [reflexivity|].
  destruct (@continuation_preserves_count
              (decided (str "there") false PyNone) (str "there") one_topic 0
              eq_refl eq_refl
              (decided_says_continue (str "there") PyNone one_topic)
              eq_refl
              (ex_intro _ (Node.mk 0 (PyStr (str "A")) (str "hi") None [])
                 (conj (or_introl eq_refl) eq_refl)))
    as [Hlen [Hsplit _]].
  split; [exact Hlen | exact Hsplit].
Defined.

(** C5. From the initial session, three accepted utterances [u1], [u2],
    [u3] decided (true, "A"), (false, any label), (true, "B") leave exactly
    two nodes: node 0 labelled "A" with text [u1 ++ " " ++ u2] and no
    parent, node 1 labelled "B" with text [u3] and parent 0; the active
    pointer is 1. In general a topic change leaves one more node, whose
    parent is the pointer that was active before, and makes that node the
    active one. *)
Theorem nesting_chain (u1 u2 u3 : pystr) (l2 : pyval) :
  accepted (Some u1) = true ->
  accepted (Some u2) = true ->
  accepted (Some u3) = true ->
  let s3 :=
    ingest_all [ decided u1 true (PyStr (str "A"));
                 decided u2 false l2;
                 decided u3 true (PyStr (str "B")) ] initial in
  tree_nodes s3
  = [ Node.mk 0 (PyStr (str "A")) (u1 ++ str " " ++ u2) None [];
      Node.mk 1 (PyStr (str "B")) u3 (Some 0) [] ]
  /\ current_parent s3 = Some 1
  /\ (forall r u s lbl,
        transcription r = Some u -> accepted (Some u) = true ->
        says_changed r u s lbl ->
        let s' := state_of (process_recording (Some r) s) in
        tree_nodes s'
        = tree_nodes s
          ++ [Node.mk (node_counter s) lbl u (current_parent s) []]
        /\ current_parent s' = Some (node_counter s)).
Proof.
  intros H1 H2 H3 s3. subst s3. unfold ingest_all. cbn [fold_left].
  rewrite (@ingest_changed u1 (PyStr (str "A")) initial H1 eq_refl).
  cbn [state_of].
  rewrite (@ingest_continue u2 l2
             (after_change u1 initial (PyStr (str "A"))) H2 eq_refl).
  cbn [state_of].
  rewrite (@ingest_changed u3 (PyStr (str "B")) _ H3 eq_refl).
  cbn [state_of].
  split; [reflexivity|]. split; [reflexivity|].
  intros r u s lbl Hu Ha Hch.
  destruct (@process_changed_tree r u s Hu Ha lbl Hch) as [Ht [Hp _]].
  auto.
Qed.

Lemma nesting_chain_witness :
  let s3 :=
    ingest_all [ decided (str "u1") true (PyStr (str "A"));
                 decided (str "u2") false PyNone;
                 decided (str "u3") true (PyStr (str "B")) ] initial in
  tree_nodes s3
  = [ Node.mk 0 (PyStr (str "A")) (str "u1 u2") None [];
      Node.mk 1 (PyStr (str "B")) (str "u3") (Some 0) [] ]
  /\ current_parent s3 = Some 1.
Proof.
  destruct (@nesting_chain (str "u1") (str "u2") (str "u3") PyNone
              eq_refl eq_refl eq_refl) as [Hn [Hc _]].
  split; [exact Hn | exact Hc].
Defined.

(* ================================================================== *)
(** ** Node ids *)

Lemma topic_change_says_changed r s :
  topic_change r ->
  exists u lbl,
    transcription r = Some u /\ accepted (Some u) = true
    /\ says_changed r u s lbl.
Proof.
  intros [u [v [x [lbl [Hu [Ha [Hv [Hx [Ht Hl]]]]]]]]].
  exists u, lbl. split; [exact Hu|]. split; [exact Ha|].
  exists x. unfold topic_info. rewrite Hv. auto.
Qed.

Lemma ingest_all_topic_changes rs :
  Forall topic_change rs ->
  forall s,
    map Node.id (tree_nodes (ingest_all rs s))
    = map Node.id (tree_nodes s) ++ seq (node_counter s) (length rs).
Proof.
  induction 1 as [|r rs Hr _ IH]; intros s.
  - simpl. now rewrite app_nil_r.
  - destruct (@topic_change_says_changed r s Hr) as [u [lbl [Hu [Ha Hch]]]].
    destruct (@process_changed_tree r u s Hu Ha lbl Hch) as [Ht [_ Hc]].
    unfold ingest_all. cbn [fold_left].
    change (fold_left _ rs ?s0) with (ingest_all rs s0).
    rewrite IH, Ht, Hc. simpl.
    rewrite map_app, <- app_assoc, Nat.add_1_r. reflexivity.
Qed.

(** C6. From a fresh session, or from the session left by "Reset All", [n]
    recordings that are all accepted and all classified as a topic change
    leave [n] nodes whose ids, in creation order, are 0, 1, ..., n-1; no id
    occurs twice. *)
Theorem monotonic_ids (s0 : session_state) (rs : list recording) :
  s0 = initial \/ (exists s, s0 = reset_all s) ->
  Forall topic_change rs ->
  map Node.id (tree_nodes (ingest_all rs s0)) = seq 0 (length rs)
  /\ length (tree_nodes (ingest_all rs s0)) = length rs
  /\ NoDup (map Node.id (tree_nodes (ingest_all rs s0))).
Proof.
  intros Hs0 Hrs.
  assert (Hids : map Node.id (tree_nodes (ingest_all rs s0)) = seq 0 (length rs)).
  { rewrite (@ingest_all_topic_changes rs Hrs).
    destruct Hs0 as [->|[s ->]]; reflexivity. }
  split; [exact Hids|]. split.
  - rewrite <- (length_map Node.id), Hids. apply length_seq.
  - rewrite Hids. apply seq_NoDup.
Qed.

Lemma monotonic_ids_witness :
  map Node.id
    (tree_nodes
       (ingest_all [ decided (str "one") true (PyStr (str "A"));
                     decided (str "two") true (PyStr (str "B"));
                     decided (str "three") true (PyStr (str "C")) ]
          (reset_all two_topics)))
  = [0; 1; 2].
Proof.
  apply (@monotonic_ids (reset_all two_topics)
           [ decided (str "one") true (PyStr (str "A"));
             decided (str "two") true (PyStr (str "B"));
             decided (str "three") true (PyStr (str "C")) ]).
  - right. exists two_topics. reflexivity.
  - repeat constructor.
    + exists (str "one"), (PyDict [ (k_topic_changed, PyBool true);
                                      (k_topic_label, PyStr (str "A")) ]),
             (PyBool true), (PyStr (str "A")). repeat split.
    + exists (str "two"), (PyDict [ (k_topic_changed, PyBool true);
                                      (k_topic_label, PyStr (str "B")) ]),
             (PyBool true), (PyStr (str "B")). repeat split.
    + exists (str "three"), (PyDict [ (k_topic_changed, PyBool true);
                                        (k_topic_label, PyStr (str "C")) ]),
             (PyBool true), (PyStr (str "C")). repeat split.
Defined.

(* ================================================================== *)
(** ** Reset *)

Lemma ingest_all_app rs1 rs2 s :
  ingest_all (rs1 ++ rs2) s = ingest_all rs2 (ingest_all rs1 s).
Proof. unfold ingest_all. apply fold_left_app. Qed.

Lemma ingest_all_snoc rs r s :
  ingest_all (rs ++ [r]) s
  = state_of (process_recording (Some r) (ingest_all rs s)).
Proof. now rewrite ingest_all_app. Qed.

(** C7, as stated, fails in its last part: after "Reset All" the next
    accepted utterance creates no node when the classifier returns
    [topic_changed = false]. *)
Lemma reset_then_continuation_creates_nothing :
  let r := decided hello false (PyStr (str "Greeting")) in
  let s' := state_of (process_recording (Some r) (reset_all two_topics)) in
  accepted (transcription r) = true
  /\ tree_nodes s' = []
  /\ conversation_history s' = [hello]
  /\ ~ (exists n, In n (tree_nodes s') /\ Node.id n = 0
                  /\ Node.parent_id n = None).
Proof.
  repeat split. intros [n [Hin _]]. exact Hin.
Qed.

(** C7, amended. "Reset All" is idempotent and leaves no nodes, the id
    counter at 0, no active pointer, no current label and an empty log.
    After it, whatever recordings are processed, the first node of the
    tree is node 0 with [parent_id = None]. As long as no node exists, a
    recording creates that node exactly when it is accepted and decided as
    a topic change with a readable label, whether the classifier answered
    or the fallback decided; every other recording (rejected, decided as a
    continuation, or raising before the decision) leaves the tree empty. *)
Theorem reset_idempotent (s : session_state) :
  reset_all (reset_all s) = reset_all s
  /\ tree_nodes (reset_all s) = []
  /\ node_counter (reset_all s) = 0
  /\ current_parent (reset_all s) = None
  /\ current_topic_label (reset_all s) = PyNone
  /\ conversation_history (reset_all s) = []
  /\ (forall rs n,
        nth_error (tree_nodes (ingest_all rs (reset_all s))) 0 = Some n ->
        Node.id n = 0 /\ Node.parent_id n = None)
  /\ (forall rs r,
        tree_nodes (ingest_all rs (reset_all s)) = [] ->
        (forall u lbl,
           transcription r = Some u -> accepted (Some u) = true ->
           says_changed r u (ingest_all rs (reset_all s)) lbl ->
           tree_nodes (ingest_all (rs ++ [r]) (reset_all s))
           = [Node.mk 0 lbl u None []])
        /\ ((forall u lbl,
               transcription r = Some u -> accepted (Some u) = true ->
               ~ says_changed r u (ingest_all rs (reset_all s)) lbl) ->
            tree_nodes (ingest_all (rs ++ [r]) (reset_all s)) = [])).
Proof.
  repeat (split; [reflexivity|]).
  split.
  - intros rs n Hn.
    pose proof (@chain_ingest_all rs (reset_all s) (chain_reset_all s)) as Hch.
    split.
    + assert (Hin : In n (tree_nodes (ingest_all rs (reset_all s)))).
      { eapply nth_error_In; eauto. }
      pose proof (map_nth_error Node.id _ _ Hn) as Hm.
      rewrite (chain_ids Hch) in Hm.
      destruct (node_counter (ingest_all rs (reset_all s))); simpl in Hm;
        [discriminate|]. now injection Hm as <-.
    + exact (chain_parents Hch _ Hn).
  - intros rs r Hempty.
    pose proof (@chain_ingest_all rs (reset_all s) (chain_reset_all s)) as Hch.
    destruct (chain_empty Hch Hempty) as [Hp Hc].
    rewrite ingest_all_snoc.
    split.
    + intros u lbl Hu Ha Hdec.
      destruct (@process_changed_tree r u _ Hu Ha lbl Hdec) as [Ht _].
      rewrite Ht, Hempty, Hp, Hc. reflexivity.
    + intros Hno.
      destruct (process_states r (ingest_all rs (reset_all s)))
        as [->|[[u [lbl [Hu [Ha [Hdec _]]]]]|[u [Hu [Ha [Hco _]]]]]].
      * exact Hempty.
      * exfalso. exact (Hno u lbl Hu Ha Hdec).
      * destruct (@process_continue_tree r u _ Hu Ha Hco) as [Ht _].
        rewrite Ht. now apply continued_nodes_empty.
Qed.

Lemma reset_idempotent_witness :
  tree_nodes
    (ingest_all
       ([ decided (str "um") false PyNone; undecided (str "eh"); empty_reply ]
        ++ [decided hello true (PyStr (str "C"))])
       (reset_all two_topics))
  = [Node.mk 0 (PyStr (str "C")) hello None []].
Proof.
  destruct (reset_idempotent two_topics) as [_ [_ [_ [_ [_ [_ [_ H]]]]]]].
  destruct (H [ decided (str "um") false PyNone; undecided (str "eh");
                empty_reply ]
              (decided hello true (PyStr (str "C"))) eq_refl) as [Hopen _].
  apply (Hopen hello (PyStr (str "C"))).
  - reflexivity.
  - reflexivity.
  - apply decided_says_changed.
Defined.

(* ================================================================== *)
(** ** Reachable sessions *)

(** C9. In every reachable session the active pointer is [None] or the id
    of a node of the tree; hence, whenever the pointer is not [None], the
    lookup loop of [update_current_node] finds a node: the branch in which
    a pointer that is not [None] matches no node is never taken. *)
Theorem active_pointer_resolves (s : session_state) :
  reachable s ->
  (current_parent s = None
   \/ exists n, In n (tree_nodes s) /\ current_parent s = Some (Node.id n))
  /\ (forall p, current_parent s = Some p ->
        exists n, find (fun n => Node.id n =? p) (tree_nodes s) = Some n
                  /\ Node.id n = p).
Proof.
  intros Hreach. pose proof (reachable_chain Hreach) as Hch.
  assert (Hin : forall p, current_parent s = Some p ->
                  exists n, In n (tree_nodes s) /\ Node.id n = p).
  { intros p Hp. rewrite (chain_active Hch) in Hp.
    destruct (node_counter s) as [|c] eqn:Hc; simpl in Hp; [discriminate|].
    injection Hp as ->.
    assert (Hseq : In p (map Node.id (tree_nodes s))).
    { rewrite (chain_ids Hch), Hc. apply in_seq. lia. }
    apply in_map_iff in Hseq. destruct Hseq as [n [Hid Hn]]. eauto. }
  split.
  - destruct (current_parent s) as [p|] eqn:Hp; [right|now left].
    destruct (Hin p eq_refl) as [n [Hn Hid]]. exists n. now rewrite Hid.
  - intros p Hp. destruct (Hin p Hp) as [n [Hn Hid]].
    destruct (find (fun n => Node.id n =? p) (tree_nodes s)) as [m|] eqn:Hf.
    + exists m. split; [reflexivity|].
      apply find_some in Hf. now apply Nat.eqb_eq.
    + exfalso. apply (find_none _ _ Hf) in Hn. simpl in Hn.
      apply Nat.eqb_neq in Hn. contradiction.
Qed.

Lemma active_pointer_resolves_witness :
  exists n,
    find (fun n => Node.id n =? 1) (tree_nodes two_topics) = Some n
    /\ Node.id n = 1.
Proof.
  destruct (@active_pointer_resolves two_topics reachable_two_topics) as [_ H].
  apply (H 1). reflexivity.
Defined.

(** C10. In every reachable session the tree is one chain: the ids, in
    list order, are 0, ..., counter-1; a node has [parent_id = None]
    exactly when its id is 0; a node with id i >= 1 has parent i-1; and when
    the tree is not empty the active pointer is counter-1, the id of the
    node created last. *)
Theorem reachable_tree_is_chain (s : session_state) :
  reachable s ->
  map Node.id (tree_nodes s) = seq 0 (node_counter s)
  /\ (forall n, In n (tree_nodes s) ->
        (Node.parent_id n = None <-> Node.id n = 0))
  /\ (forall n, In n (tree_nodes s) -> 1 <= Node.id n ->
        Node.parent_id n = Some (Node.id n - 1))
  /\ (tree_nodes s <> [] ->
      current_parent s = Some (node_counter s - 1)
      /\ exists last, nth_error (tree_nodes s) (node_counter s - 1) = Some last
                      /\ Node.id last = node_counter s - 1).
Proof.
  intros Hreach. pose proof (reachable_chain Hreach) as Hch.
  split; [exact (chain_ids Hch)|]. split; [|split].
  - intros n Hn. destruct (@chain_node s n Hch Hn) as [_ Hp]. rewrite Hp.
    destruct (Node.id n); simpl; split; intros; congruence.
  - intros n Hn Hge. destruct (@chain_node s n Hch Hn) as [_ Hp]. rewrite Hp.
    destruct (Node.id n) as [|i]; [lia|]. simpl. f_equal. lia.
  - intros Hne. pose proof (chain_size Hch) as Hlen.
    destruct (node_counter s) as [|c] eqn:Hc.
    { destruct (tree_nodes s); [contradiction|discriminate]. }
    split.
    + rewrite (chain_active Hch), Hc. simpl. f_equal. lia.
    + replace (S c - 1) with c by lia.
      destruct (nth_error (tree_nodes s) c) as [last|] eqn:Hl.
      * exists last. split; [reflexivity|].
        pose proof (map_nth_error Node.id _ _ Hl) as Hm.
        rewrite (chain_ids Hch), Hc, nth_error_seq in Hm.
        destruct (Nat.ltb_spec c (S c)); [|lia].
        simpl in Hm. now injection Hm as <-.
      * apply nth_error_None in Hl. lia.
Qed.

Lemma reachable_tree_is_chain_witness :
  map Node.id (tree_nodes two_topics) = seq 0 (node_counter two_topics)
  /\ current_parent two_topics = Some (node_counter two_topics - 1).
Proof.
  destruct (@reachable_tree_is_chain two_topics reachable_two_topics)
    as [Hids [_ [_ Hact]]].
  split; [exact Hids|].
  apply Hact. discriminate.
Defined.

(* ================================================================== *)
(** ** Outcomes of [process_recording] *)

Lemma process_fault r u s e :
  transcription r = Some u -> accepted (Some u) = true ->
  reply_fault (completion r) = Some e ->
  process_recording (Some r) s = Raised e s.
Proof.
  intros Hu Ha Hf. unfold reply_fault in Hf.
  destruct (completion r) as [|v] eqn:Hv; [discriminate|].
  destruct (getitem v k_topic_changed) as [e0|x] eqn:Hc.
  - injection Hf as <-. apply (@process_no_decision r u s Hu Ha).
    unfold topic_info. now rewrite Hv.
  - destruct (truthy x) eqn:Hx; [|discriminate].
    destruct (getitem v k_topic_label) as [e1|lbl] eqn:Hl; [|discriminate].
    injection Hf as <-. apply (@process_no_label r u s Hu Ha x); auto;
      unfold topic_info; now rewrite Hv.
Qed.

Lemma process_no_fault r u s :
  reply_fault (completion r) = None ->
  (exists lbl, says_changed r u s lbl) \/ says_continue r u s.
Proof.
  intros Hf.
  destruct (completion r) as [|v] eqn:Hv.
  - destruct (conversation_history s) as [|h hist] eqn:Hlog.
    + left. exists new_topic. now apply failed_says_changed.
    + right. apply failed_says_continue; auto. rewrite Hlog. discriminate.
  - unfold reply_fault in Hf.
    destruct (getitem v k_topic_changed) as [e0|x] eqn:Hc; [discriminate|].
    destruct (truthy x) eqn:Hx.
    + destruct (getitem v k_topic_label) as [e1|lbl] eqn:Hl; [discriminate|].
      left. exists lbl, x. unfold topic_info. rewrite Hv. auto.
    + right. exists x. unfold topic_info. rewrite Hv. auto.
Qed.

Lemma process_not_heard r s :
  accepted (transcription r) = false ->
  process_recording (Some r) s = Returned tt s.
Proof.
  intros Ha. destruct (transcription r) as [u|] eqn:Hu.
  - now apply (@process_rejected r u s Hu).
  - unfold process_recording, transcribe_audio. now rewrite Hu.
Qed.

(** X1. [process_recording] raises in three situations only, all with an
    accepted transcript. When the decision cannot be read out of a parsed
    reply ([topic_changed] unreadable, or true with [topic_label]
    unreadable) it raises that lookup error before anything is written.
    When a topic is opened with a label that cannot be shown it raises
    [UnicodeEncodeError] after the node, the pointer, the counter and the
    label are written; when a topic is continued while the current label
    cannot be shown it raises [UnicodeEncodeError] after the text is
    appended. In all three the log is not written. *)
Theorem process_recording_raises_iff (r : recording) (s s' : session_state)
    (e : exn) :
  process_recording (Some r) s = Raised e s'
  <-> exists u,
        transcription r = Some u /\ accepted (Some u) = true
        /\ conversation_history s' = conversation_history s
        /\ ((reply_fault (completion r) = Some e /\ s' = s)
            \/ (e = UnicodeEncodeError
                /\ exists lbl, says_changed r u s lbl
                               /\ encodable lbl = false
                               /\ s' = changed_state u s lbl)
            \/ (e = UnicodeEncodeError
                /\ says_continue r u s
                /\ encodable (current_topic_label s) = false
                /\ s' = continued_state u s)).
Proof.
  split.
  - intros H. destruct (accepted (transcription r)) eqn:Ha.
    2:{ rewrite (@process_not_heard r s Ha) in H. discriminate. }
    destruct (transcription r) as [u|] eqn:Hu; [|discriminate].
    exists u. split; [reflexivity|]. split; [exact Ha|].
    destruct (reply_fault (completion r)) as [e0|] eqn:Hf.
    + rewrite (@process_fault r u s e0 Hu Ha Hf) in H.
      injection H as -> ->. split; [reflexivity|]. left. auto.
    + destruct (@process_no_fault r u s Hf) as [[lbl Hch]|Hco].
      * rewrite (@process_changed r u s Hu Ha lbl Hch) in H.
        destruct (encodable lbl) eqn:Henc; [discriminate|].
        injection H as <- <-. split; [reflexivity|].
        right. left. split; [reflexivity|]. exists lbl. auto.
      * rewrite (@process_continue r u s Hu Ha Hco) in H.
        destruct (encodable (current_topic_label s)) eqn:Henc; [discriminate|].
        injection H as <- <-. split; [reflexivity|].
        right. right. auto.
  - intros [u [Hu [Ha [_ [[Hf ->]|[[-> [lbl [Hch [Henc ->]]]]|[-> [Hco [Henc ->]]]]]]]]].
    + now apply (@process_fault r u s e).
    + now rewrite (@process_changed r u s Hu Ha lbl Hch), Henc.
    + now rewrite (@process_continue r u s Hu Ha Hco), Henc.
Qed.

Lemma process_recording_raises_iff_witness :
  process_recording (Some (decided (str "more") false PyNone)) unlogged_topic
  = Raised UnicodeEncodeError
      (continued_state (str "more") unlogged_topic).
Proof.
  apply (proj2 (process_recording_raises_iff
                  (decided (str "more") false PyNone) unlogged_topic
                  (continued_state (str "more") unlogged_topic)
                  UnicodeEncodeError)).
  exists (str "more").
  split; [reflexivity|]. split; [reflexivity|]. split; [reflexivity|].
  right. right. split; [reflexivity|].
  split; [apply decided_says_continue|]. split; reflexivity.
Defined.

(* ================================================================== *)
(** ** The conversation log *)

Lemma process_log r s :
  conversation_history (state_of (process_recording (Some r) s))
  = conversation_history s
    ++ match logged r s with Some u => [u] | None => [] end.
Proof.
  unfold logged.
  destruct (process_cases r s)
    as [H|[[e H]|[[u [lbl [Hu [Ha [_ H]]]]]|[u [Hu [Ha [_ H]]]]]]]; rewrite H.
  - cbn [state_of].
    destruct (transcription r) as [u|] eqn:Hu.
    + destruct (accepted (Some u)) eqn:Ha.
      * exfalso.
        destruct (reply_fault (completion r)) as [e|] eqn:Hf.
        -- rewrite (@process_fault r u s e Hu Ha Hf) in H. discriminate.
        -- destruct (@process_no_fault r u s Hf) as [[lbl Hch]|Hco].
           ++ rewrite (@process_changed r u s Hu Ha lbl Hch) in H.
              destruct (encodable lbl); [|discriminate].
              injection H as H.
              apply (f_equal (fun t => length (tree_nodes t))) in H.
              simpl in H. rewrite length_app in H. simpl in H. lia.
           ++ rewrite (@process_continue r u s Hu Ha Hco) in H.
              destruct (encodable (current_topic_label s)); [|discriminate].
              injection H as H.
              apply (f_equal (fun t => length (conversation_history t))) in H.
              simpl in H. rewrite length_app in H. simpl in H. lia.
      * now rewrite app_nil_r.
    + simpl. now rewrite app_nil_r.
  - simpl. now rewrite app_nil_r.
  - rewrite Hu, Ha. destruct (encodable lbl); simpl; [reflexivity|].
    now rewrite app_nil_r.
  - rewrite Hu, Ha. destruct (encodable (current_topic_label s)); simpl;
      [reflexivity|]. now rewrite app_nil_r.
Qed.

(** X2. The log after a run of the controller is the log before it followed
    by the transcripts of the recordings that were accepted and whose
    processing returned normally, in the order of arrival and unmodified.
    A call that raises logs nothing, also when it has already written to
    the tree. *)
Theorem log_completeness (rs : list recording) (s : session_state) :
  conversation_history (ingest_all rs s)
  = conversation_history s ++ log_of rs s.
Proof.
  revert s. induction rs as [|r rs IH]; intros s.
  - simpl. now rewrite app_nil_r.
  - unfold ingest_all. cbn [fold_left].
    change (fold_left _ rs ?s0) with (ingest_all rs s0).
    rewrite IH, process_log. cbn [log_of].
    now rewrite app_assoc.
Qed.

(* ================================================================== *)
(** ** The recorder handler *)

Lemma process_last_audio_id r s :
  last_audio_id (state_of (process_recording (Some r) s)) = last_audio_id s.
Proof.
  destruct (process_states r s)
    as [->|[[u [lbl [_ [_ [_ [->| ->]]]]]]|[u [_ [_ [_ [->| ->]]]]]]];
    reflexivity.
Qed.

Lemma on_audio_seen a s :
  last_audio_id s = Some (rec_id a) ->
  on_audio (Some a) s = Returned tt s.
Proof.
  intros H. unfold on_audio, bind, gets. rewrite H, Nat.eqb_refl. reflexivity.
Qed.

Lemma on_audio_last a s :
  last_audio_id (state_of (on_audio (Some a) s)) = Some (rec_id a).
Proof.
  destruct (last_audio_id s) as [l|] eqn:Hl.
  - destruct (Nat.eqb_spec (rec_id a) l) as [Heq|Hne].
    + rewrite on_audio_seen; simpl; congruence.
    + unfold on_audio, bind, gets. rewrite Hl.
      apply Nat.eqb_neq in Hne. rewrite Hne. cbn [negb modify].
      change (last_audio_id
                (state_of (process_recording (Some a)
                             (set_last_audio_id (Some (rec_id a)) s)))
              = Some (rec_id a)).
      now rewrite process_last_audio_id.
  - unfold on_audio, bind, gets. rewrite Hl. cbn [modify].
    change (last_audio_id
              (state_of (process_recording (Some a)
                           (set_last_audio_id (Some (rec_id a)) s)))
            = Some (rec_id a)).
    now rewrite process_last_audio_id.
Qed.

(** X3. The recorder handler processes a recording once: delivering the
    same recording again right after it was handled changes nothing, in any
    session, also when its processing raised. *)
Theorem on_audio_idempotent (a : recording) (s : session_state) :
  handle (Recorded a) (handle (Recorded a) s) = handle (Recorded a) s.
Proof.
  cbn [handle]. now rewrite (@on_audio_seen a _ (on_audio_last a s)).
Qed.

(** X4. "Reset All" does not forget the id of the last recording: the
    recording handled last before the reset is still ignored when it is
    delivered again after the reset, so it cannot open the first topic of
    the new session. *)
Theorem reset_keeps_last_audio_id (a : recording) (s : session_state) :
  last_audio_id (reset_all s) = last_audio_id s
  /\ handle (Recorded a) (reset_all (handle (Recorded a) s))
     = reset_all (handle (Recorded a) s).
Proof.
  split; [reflexivity|].
  cbn [handle]. rewrite on_audio_seen; [reflexivity|].
  change (last_audio_id (state_of (on_audio (Some a) s)) = Some (rec_id a)).
  apply on_audio_last.
Qed.

(* ================================================================== *)
(** ** Nodes are only ever added or extended *)

Lemma extends_refl n : extends n n.
Proof.
  repeat split. exists []. now rewrite app_nil_r.
Qed.

Lemma extends_trans a b c : extends a b -> extends b c -> extends a c.
Proof.
  intros [H1 [H2 [H3 [H4 [x Hx]]]]] [K1 [K2 [K3 [K4 [y Hy]]]]].
  repeat split; try congruence.
  exists (x ++ y). now rewrite Hy, Hx, app_assoc.
Qed.

Lemma Forall2_extends_refl l : Forall2 extends l l.
Proof. induction l; constructor; auto using extends_refl. Qed.

Lemma Forall2_extends_trans l1 l2 l3 :
  Forall2 extends l1 l2 -> Forall2 extends l2 l3 -> Forall2 extends l1 l3.
Proof.
  intros H. revert l3. induction H as [|a b l1 l2 Hab _ IH]; intros l3 H3.
  - inversion H3. constructor.
  - inversion H3 as [|b' c l2' l3' Hbc Hrest]; subst.
    constructor; eauto using extends_trans.
Qed.

Lemma append_to_first_extends cid extra nodes :
  Forall2 extends nodes (append_to_first cid extra nodes).
Proof.
  induction nodes as [|n nodes IH]; simpl; [constructor|].
  destruct (Node.id n =? cid).
  - constructor; [|apply Forall2_extends_refl].
    repeat split. now exists extra.
  - constructor; [apply extends_refl | exact IH].
Qed.

Lemma continued_nodes_extends u s :
  Forall2 extends (tree_nodes s) (continued_nodes u s).
Proof.
  unfold continued_nodes.
  destruct (tree_nodes s) as [|n nodes]; [constructor|].
  destruct (current_parent s).
  - apply append_to_first_extends.
  - apply Forall2_extends_refl.
Qed.

Lemma process_extends r s :
  exists kept added,
    tree_nodes (state_of (process_recording (Some r) s)) = kept ++ added
    /\ Forall2 extends (tree_nodes s) kept
    /\ length added <= 1.
Proof.
  destruct (process_states r s)
    as [->|[[u [lbl [_ [_ [_ [->| ->]]]]]]|[u [_ [_ [_ [->| ->]]]]]]].
  - exists (tree_nodes s), []. rewrite app_nil_r.
    split; [reflexivity|]. split; [apply Forall2_extends_refl | simpl; lia].
  - eexists (tree_nodes s), [_]. split; [reflexivity|].
    split; [apply Forall2_extends_refl | simpl; lia].
  - eexists (tree_nodes s), [_]. split; [reflexivity|].
    split; [apply Forall2_extends_refl | simpl; lia].
  - exists (continued_nodes u s), []. simpl. rewrite app_nil_r.
    split; [reflexivity|]. split; [apply continued_nodes_extends | lia].
  - exists (continued_nodes u s), []. simpl. rewrite app_nil_r.
    split; [reflexivity|]. split; [apply continued_nodes_extends | lia].
Qed.

(** X5. Between resets the tree is append-only: after any run of the
    controller the nodes that existed before are still there, at the same
    positions, with the same id, label, parent and children, and with a
    text that starts with the text they had; at most one node per recording
    has been added behind them. *)
Theorem tree_is_append_only (rs : list recording) (s : session_state) :
  exists kept added,
    tree_nodes (ingest_all rs s) = kept ++ added
    /\ Forall2 extends (tree_nodes s) kept
    /\ length added <= length rs.
Proof.
  revert s. induction rs as [|r rs IH]; intros s.
  - exists (tree_nodes s), []. simpl. rewrite app_nil_r.
    split; [reflexivity|]. split; [apply Forall2_extends_refl | lia].
  - unfold ingest_all. cbn [fold_left].
    change (fold_left _ rs ?s0) with (ingest_all rs s0).
    destruct (process_extends r s) as [kept1 [added1 [H1 [HF1 Hl1]]]].
    destruct (IH (state_of (process_recording (Some r) s)))
      as [kept [added [H2 [HF2 Hl2]]]].
    rewrite H1 in HF2. apply Forall2_app_inv_l in HF2.
    destruct HF2 as [k1 [k2 [Hk1 [Hk2 ->]]]].
    exists k1, (k2 ++ added). split; [now rewrite H2, app_assoc|].
    split; [eapply Forall2_extends_trans; eauto|].
    rewrite length_app, <- (Forall2_length Hk2). simpl. lia.
Qed.

(** X6. A continuation that finds no node to extend is silent: when the
    classifier step yields [topic_changed = false] and the active pointer
    is [None], or is the id of no node, the tree, the pointer and the
    counter are left as they were. When the current label can be shown the
    call returns normally and the utterance is appended to the log only,
    so its text is in no node; otherwise the call raises
    [UnicodeEncodeError] and the utterance is not even logged. *)
Theorem continuation_without_target (r : recording) (u : pystr)
    (s : session_state) :
  transcription r = Some u ->
  accepted (Some u) = true ->
  says_continue r u s ->
  (current_parent s = None
   \/ exists p, current_parent s = Some p
                /\ forall n, In n (tree_nodes s) -> Node.id n <> p) ->
  let s' := state_of (process_recording (Some r) s) in
  tree_nodes s' = tree_nodes s
  /\ current_parent s' = current_parent s
  /\ node_counter s' = node_counter s
  /\ (encodable (current_topic_label s) = true ->
      process_recording (Some r) s = Returned tt s'
      /\ conversation_history s' = conversation_history s ++ [u])
  /\ (encodable (current_topic_label s) = false ->
      process_recording (Some r) s = Raised UnicodeEncodeError s'
      /\ conversation_history s' = conversation_history s).
Proof.
  intros Hu Ha Hco Hstale s'. subst s'.
  destruct (@process_continue_tree r u s Hu Ha Hco) as [Ht [Hp Hc]].
  split.
  { rewrite Ht. unfold continued_nodes.
    destruct (tree_nodes s) as [|m nodes] eqn:Hn; [reflexivity|].
    destruct Hstale as [->|[p [-> Hpn]]]; [reflexivity|].
    now apply append_to_first_miss. }
  split; [exact Hp|]. split; [exact Hc|].
  rewrite (@process_continue r u s Hu Ha Hco).
  split; intros Henc; rewrite Henc; split; reflexivity.
Qed.

Lemma continuation_without_target_witness :
  tree_nodes
    (state_of (process_recording (Some (decided hello false PyNone)) initial))
  = []
  /\ conversation_history
       (state_of
          (process_recording (Some (decided hello false PyNone)) initial))
     = [hello].
Proof.
  destruct (@continuation_without_target (decided hello false PyNone) hello
              initial eq_refl eq_refl
              (decided_says_continue hello PyNone initial)
              (or_introl eq_refl))
    as [Ht [_ [_ [Hok _]]]].
  split; [exact Ht|]. apply (Hok eq_refl).
Defined.

(* ================================================================== *)
(** ** The current label and the selected node *)

Lemma nth_error_last {A : Type} (l : list A) i x d :
  nth_error l i = Some x -> S i = length l -> last l d = x.
Proof.
  revert i. induction l as [|a l IH]; intros i Hn Hlen; [destruct i; discriminate|].
  destruct i as [|j]; simpl in Hn.
  - injection Hn as ->. destruct l; [reflexivity|discriminate].
  - destruct l as [|b l]; [destruct j; discriminate|].
    change (last (b :: l) d = x). apply (IH j); auto.
Qed.

(** X7. In every reachable session [current_topic_label] is the label of
    the active node (the node whose id is the active pointer), and it is
    [None] when there is no active node; [current_topic_text] is never
    written and stays empty. *)
Theorem current_label_is_active_label (s : session_state) :
  reachable s ->
  (forall n, In n (tree_nodes s) -> current_parent s = Some (Node.id n) ->
             current_topic_label s = Node.label n)
  /\ (current_parent s = None -> current_topic_label s = PyNone)
  /\ current_topic_text s = [].
Proof.
  intros Hreach.
  pose proof (reachable_chain Hreach) as Hch.
  pose proof (reachable_coherent Hreach) as Hco.
  split; [|split; [|exact (coherent_text Hco)]].
  - intros n Hn Hp. rewrite (coherent_label Hco).
    rewrite (chain_active Hch) in Hp.
    destruct (node_counter s) as [|c] eqn:Hc; [discriminate|].
    injection Hp as Hp.
    destruct (@chain_index s n Hch Hn) as [_ Hi].
    apply (@nth_error_last _ (map Node.label (tree_nodes s)) (Node.id n)).
    + now apply map_nth_error.
    + rewrite length_map, (chain_size Hch), Hc. lia.
  - intros Hp. rewrite (coherent_label Hco).
    rewrite (chain_active Hch) in Hp.
    destruct (node_counter s) as [|c] eqn:Hc; [|discriminate].
    pose proof (chain_size Hch) as Hl. rewrite Hc in Hl.
    destruct (tree_nodes s); [reflexivity|discriminate].
Qed.

Lemma current_label_is_active_label_witness :
  current_topic_label two_topics = PyStr (str "B").
Proof.
  destruct (@current_label_is_active_label two_topics reachable_two_topics)
    as [H _].
  apply (H (Node.mk 1 (PyStr (str "B")) (str "bye") (Some 0) [])).
  - right. left. reflexivity.
  - reflexivity.
Defined.

(** X8. In every reachable session a selected node resolves: when
    [selected_node] is set, the lookup of the "Full Transcript" panel finds
    a node with that id. Nodes are never removed while a selection exists,
    because "Reset All" deletes the selection together with the nodes. *)
Theorem selected_node_resolves (s : session_state) (nid : nat) :
  reachable s ->
  selected_node s = Some nid ->
  exists n, full_transcript s = Some n /\ Node.id n = nid.
Proof.
  intros Hreach Hsel. unfold full_transcript. rewrite Hsel.
  apply chain_find; [now apply reachable_chain|].
  now apply (coherent_selected (reachable_coherent Hreach)).
Qed.

Lemma selected_node_resolves_witness :
  exists n,
    full_transcript
      (handle (Ingest (decided (str "more") false PyNone))
         (handle (View 1) two_topics))
    = Some n /\ Node.id n = 1.
Proof.
  apply selected_node_resolves.
  - apply reach_step, reach_step, reachable_two_topics.
  - reflexivity.
Defined.

(* ================================================================== *)
(** ** The text of a topic *)

Lemma join_concat sep u0 us :
  join sep (u0 :: us) = u0 ++ concat (map (fun u => sep ++ u) us).
Proof.
  revert u0. induction us as [|u us IH]; intros u0.
  - simpl. now rewrite app_nil_r.
  - change (join sep (u0 :: u :: us)) with (u0 ++ sep ++ join sep (u :: us)).
    rewrite IH. simpl. now rewrite <- app_assoc.
Qed.

Lemma keeps_topic_says_continue r u s :
  keeps_topic r u -> conversation_history s <> [] -> says_continue r u s.
Proof.
  intros [_ [_ [Hf|[v [x [Hv [Hx Ht]]]]]]] Hlog.
  - now apply failed_says_continue.
  - exists x. unfold topic_info. rewrite Hv. auto.
Qed.

Lemma continuations_accumulate rs us :
  Forall2 keeps_topic rs us ->
  forall s old n,
    tree_nodes s = old ++ [n] ->
    current_parent s = Some (Node.id n) ->
    (forall m, In m old -> Node.id m <> Node.id n) ->
    conversation_history s <> [] ->
    encodable (current_topic_label s) = true ->
    tree_nodes (ingest_all rs s)
    = old ++ [Node.mk (Node.id n) (Node.label n)
                (Node.text n ++ concat (map (fun u => str " " ++ u) us))
                (Node.parent_id n) (Node.children n)]
    /\ current_parent (ingest_all rs s) = Some (Node.id n)
    /\ node_counter (ingest_all rs s) = node_counter s.
Proof.
  induction 1 as [|r u rs us Hr _ IH];
    intros s old n Htree Hcur Hold Hlog Henc.
  - simpl. rewrite app_nil_r, Htree. destruct n; auto.
  - unfold ingest_all. cbn [fold_left].
    change (fold_left _ rs ?s0) with (ingest_all rs s0).
    destruct Hr as [Hu [Ha Hdec]].
    rewrite (@process_continue r u s Hu Ha
               (@keeps_topic_says_continue r u s (conj Hu (conj Ha Hdec)) Hlog)),
      Henc.
    cbn [state_of].
    assert (Hstep : tree_nodes (after_continue u s)
                    = old ++ [Node.mk (Node.id n) (Node.label n)
                                (Node.text n ++ str " " ++ u)
                                (Node.parent_id n) (Node.children n)]).
    { simpl. unfold continued_nodes. rewrite Hcur, Htree.
      destruct (old ++ [n]) as [|a l] eqn:Hl.
      - destruct old; discriminate.
      - rewrite <- Hl. now apply append_to_first_last. }
    destruct (IH (after_continue u s) old
                 (Node.mk (Node.id n) (Node.label n)
                    (Node.text n ++ str " " ++ u)
                    (Node.parent_id n) (Node.children n)))
      as [H1 [H2 H3]]; auto.
    { simpl. intros Habs. destruct (conversation_history s); discriminate. }
    rewrite H1, H2, H3. split; [|auto].
    simpl. now rewrite <- !app_assoc.
Qed.

Lemma topic_accumulates s r0 u0 lbl rs us :
  chain s ->
  transcription r0 = Some u0 -> accepted (Some u0) = true ->
  says_changed r0 u0 s lbl ->
  encodable lbl = true ->
  Forall2 keeps_topic rs us ->
  tree_nodes (ingest_all (r0 :: rs) s)
  = tree_nodes s
    ++ [Node.mk (node_counter s) lbl (join (str " ") (u0 :: us))
          (current_parent s) []]
  /\ current_parent (ingest_all (r0 :: rs) s) = Some (node_counter s).
Proof.
  intros Hch Hu Ha Hdec Henc Hrs.
  unfold ingest_all. cbn [fold_left].
  change (fold_left _ rs ?s0) with (ingest_all rs s0).
  rewrite (@process_changed r0 u0 s Hu Ha lbl Hdec), Henc. cbn [state_of].
  destruct (@continuations_accumulate rs us Hrs (after_change u0 s lbl)
              (tree_nodes s)
              (Node.mk (node_counter s) lbl u0 (current_parent s) []))
    as [H1 [H2 _]]; auto.
  - intros m Hm. simpl. destruct (@chain_node s m Hch Hm) as [Hlt _]. lia.
  - simpl. intros Habs. destruct (conversation_history s); discriminate.
  - rewrite H1, H2. split; [|reflexivity].
    rewrite join_concat. reflexivity.
Qed.

(** X9. In a reachable session, an utterance that opens a topic with a
    label that can be shown, followed by any number of utterances that
    continue it (classifier returns a false [topic_changed], or fails),
    leave one new node behind the old ones; its text is the utterances
    joined by single spaces, in order of arrival, each exactly as
    transcribed, and the earlier nodes are untouched. *)
Theorem topic_text_is_joined_utterances (s : session_state) (r0 : recording)
    (u0 : pystr) (lbl : pyval) (rs : list recording) (us : list pystr) :
  reachable s ->
  transcription r0 = Some u0 -> accepted (Some u0) = true ->
  says_changed r0 u0 s lbl ->
  encodable lbl = true ->
  Forall2 keeps_topic rs us ->
  tree_nodes (ingest_all (r0 :: rs) s)
  = tree_nodes s
    ++ [Node.mk (node_counter s) lbl (join (str " ") (u0 :: us))
          (current_parent s) []]
  /\ current_parent (ingest_all (r0 :: rs) s) = Some (node_counter s).
Proof.
  intros Hreach. apply topic_accumulates. now apply reachable_chain.
Qed.

Lemma topic_text_is_joined_utterances_witness :
  tree_nodes
    (ingest_all [ decided (str "and now") true (PyStr (str "C"));
                  decided (str "for something") false PyNone;
                  undecided (str " else ") ] two_topics)
  = tree_nodes two_topics
    ++ [Node.mk 2 (PyStr (str "C")) (str "and now for something  else ")
          (Some 1) []].
Proof.
  apply (@topic_text_is_joined_utterances two_topics
           (decided (str "and now") true (PyStr (str "C"))) (str "and now")
           (PyStr (str "C"))
           [decided (str "for something") false PyNone; undecided (str " else ")]
           [str "for something"; str " else "]).
  - exact reachable_two_topics.
  - reflexivity.
  - reflexivity.
  - apply decided_says_changed.
  - reflexivity.
  - constructor; [|constructor; [|constructor]].
    + split; [reflexivity|]. split; [reflexivity|].
      right. exists (PyDict [ (k_topic_changed, PyBool false);
                              (k_topic_label, PyNone) ]), (PyBool false).
      split; [reflexivity|]. split; reflexivity.
    + split; [reflexivity|]. split; [reflexivity|]. left. reflexivity.
Defined.

(** X10. With a classifier that fails on every call, a session of accepted
    utterances started from the initial state ends with exactly one node:
    node 0, labelled "New Topic", without parent, whose text is all the
    utterances joined by single spaces. *)
Theorem classifier_outage_gives_one_topic (u0 : pystr) (us : list pystr) :
  Forall (fun u => accepted (Some u) = true) (u0 :: us) ->
  tree_nodes (ingest_all (map undecided (u0 :: us)) initial)
  = [Node.mk 0 new_topic (join (str " ") (u0 :: us)) None []].
Proof.
  intros Hacc. inversion Hacc as [|? ? Ha0 Hrest]; subst.
  cbn [map].
  apply (@topic_accumulates initial (undecided u0) u0 new_topic
           (map undecided us) us chain_initial eq_refl Ha0).
  - now apply failed_says_changed.
  - reflexivity.
  - clear Hacc Ha0. induction Hrest as [|u us Hu _ IH]; simpl; constructor; auto.
    split; [reflexivity|]. split; [exact Hu|]. left. reflexivity.
Qed.

Lemma classifier_outage_gives_one_topic_witness :
  tree_nodes
    (ingest_all (map undecided [str "one"; str "two"; str "three"]) initial)
  = [Node.mk 0 new_topic (str "one two three") None []].
Proof.
  apply (@classifier_outage_gives_one_topic (str "one") [str "two"; str "three"]).
  repeat constructor.
Defined.

(* ================================================================== *)
(** ** Windows over the log *)

(** A negative start keeps the last [k] elements, or all of them when there
    are fewer. *)
Lemma slice_from_last {A : Type} (k : nat) (l : list A) :
  0 < k -> slice_from (- Z.of_nat k) l = skipn (length l - k) l.
Proof.
  intros Hk. unfold slice_from.
  destruct (Z.ltb_spec (- Z.of_nat k) 0) as [_|H]; [|lia].
  f_equal. lia.
Qed.

Lemma length_enumerate {A : Type} (l : list A) start :
  length (enumerate start l) = length l.
Proof.
  revert start. induction l as [|x l IH]; intros start; simpl; auto.
Qed.

Lemma nth_error_enumerate {A : Type} (l : list A) start i :
  nth_error (enumerate start l) i
  = option_map (fun x => ((start + Z.of_nat i)%Z, x)) (nth_error l i).
Proof.
  revert start i. induction l as [|x l IH]; intros start i.
  - destruct i; reflexivity.
  - destruct i as [|i].
    + simpl. now rewrite Z.add_0_r.
    + cbn [enumerate nth_error]. rewrite IH.
      destruct (nth_error l i); simpl; [|reflexivity].
      do 2 f_equal. lia.
Qed.

(** X11. The context handed to the classifier is built from the last three
    log entries only: a log of at most three entries is joined whole, and a
    longer log contributes its last three entries joined by single spaces,
    whatever came before them. *)
Theorem recent_context_window (h : list pystr) :
  (length h <= 3 -> recent_context h = join (str " ") h)
  /\ (forall older a b c,
        h = older ++ [a; b; c] ->
        recent_context h = a ++ str " " ++ b ++ str " " ++ c).
Proof.
  split.
  - intros Hlen. destruct h as [|x h]; [reflexivity|].
    unfold recent_context.
    change (-3)%Z with (- Z.of_nat 3)%Z.
    rewrite (@slice_from_last _ 3) by lia.
    replace (length (x :: h) - 3) with 0 by lia. reflexivity.
  - intros older a b c ->.
    unfold recent_context.
    destruct (older ++ [a; b; c]) as [|x t] eqn:Heq.
    { destruct older; discriminate. }
    rewrite <- Heq. change (-3)%Z with (- Z.of_nat 3)%Z.
    rewrite (@slice_from_last _ 3) by lia.
    rewrite length_app. simpl length.
    replace (length older + 3 - 3) with (length older) by lia.
    rewrite skipn_app, skipn_all, Nat.sub_diag. reflexivity.
Qed.

Lemma recent_context_window_witness :
  recent_context [str "a"; str "b"; str "c"; str "d"] = str "b c d".
Proof.
  apply (proj2 (recent_context_window [str "a"; str "b"; str "c"; str "d"])
           [str "a"] (str "b") (str "c") (str "d")).
  reflexivity.
Defined.

(** X12. The "Conversation History" loop calls [st.text_area] once for each
    of the last five log entries (all of them when there are fewer), oldest
    first, passing that entry as [value] and [history_1], [history_2], ...
    as [key]. The number it puts after "Recording" in the label is the
    entry's 1-based position in the log minus [5 - len] when the log has
    fewer than five entries [len]: it is the position once there are at
    least five recordings, and too small (zero or negative for the first
    entries) before that. *)
Theorem history_panel_numbers (h : list pystr) :
  length (history_panel h) = Nat.min 5 (length h)
  /\ forall i a,
       nth_error (history_panel h) i = Some a ->
       let pos := length h - Nat.min 5 (length h) + i + 1 in
       nth_error h (pos - 1) = Some (area_value a)
       /\ area_key a = Z.of_nat (i + 1)
       /\ area_number a = (Z.of_nat pos - Z.of_nat (5 - length h))%Z.
Proof.
  destruct h as [|x t] eqn:Hh; [split; [reflexivity | intros [|i] a; discriminate]|].
  assert (Hpanel : history_panel h
                   = map (fun it =>
                            mk_text_area (Z.of_nat (length h) - 5 + fst it)
                              (snd it) (fst it))
                         (enumerate 1 (skipn (length h - 5) h))).
  { rewrite Hh. unfold history_panel.
    change (-5)%Z with (- Z.of_nat 5)%Z.
    now rewrite (@slice_from_last _ 5) by lia. }
  rewrite <- Hh, Hpanel.
  split.
  - rewrite length_map, length_enumerate, length_skipn. lia.
  - intros i a Ha pos.
    rewrite nth_error_map, nth_error_enumerate, nth_error_skipn in Ha.
    remember (1 + Z.of_nat i)%Z as z eqn:Hz.
    destruct (nth_error h (length h - 5 + i)) as [v|] eqn:Hv; [|discriminate].
    unfold option_map in Ha. injection Ha as <-.
    unfold area_key, area_number, area_value, fst, snd.
    assert (Hlt : length h - 5 + i < length h).
    { apply nth_error_Some. congruence. }
    subst pos. split; [|split].
    + rewrite <- Hv. f_equal. lia.
    + lia.
    + lia.
Qed.

Lemma history_panel_numbers_witness :
  nth_error [str "first"; str "second"] 0
  = Some (area_value (mk_text_area (-2) (str "first") 1))
  /\ area_key (mk_text_area (-2) (str "first") 1) = Z.of_nat (0 + 1)
  /\ area_number (mk_text_area (-2) (str "first") 1)
     = (Z.of_nat (2 - Nat.min 5 2 + 0 + 1) - Z.of_nat (5 - 2))%Z.
Proof.
  apply (proj2 (history_panel_numbers [str "first"; str "second"]) 0
           (mk_text_area (-2) (str "first") 1)).
  reflexivity.
Defined.

(* ================================================================== *)
(** ** The queries that shape the drawn tree *)

(** In a list whose [j]-th node has parent [previous (k + j)], the nodes
    with parent [i] are the single node at position [i + 1 - k], if any. *)
Lemma filter_children_from (l : list Node.t) (k : nat) (node : Node.t) :
  (forall j m, nth_error l j = Some m -> Node.parent_id m = previous (k + j)) ->
  filter (is_child_of node) l
  = match (if k <=? S (Node.id node)
           then nth_error l (S (Node.id node) - k) else None) with
    | Some m => [m]
    | None => []
    end.
Proof.
  revert k. induction l as [|m l IH]; intros k H.
  - destruct (k <=? S (Node.id node)); [|reflexivity].
    now destruct (S (Node.id node) - k).
  - assert (Hm : Node.parent_id m = previous k).
    { rewrite (H 0 m eq_refl). f_equal. lia. }
    assert (Hl : forall j m', nth_error l j = Some m' ->
                   Node.parent_id m' = previous (S k + j)).
    { intros j m' Hj. rewrite (H (S j) m' Hj). f_equal. lia. }
    specialize (IH (S k) Hl).
    cbn [filter]. unfold is_child_of at 1. rewrite Hm, IH.
    destruct (Nat.leb_spec k (S (Node.id node))) as [Hle|Hgt].
    + destruct (Nat.eq_dec k (S (Node.id node))) as [->|Hne].
      * cbn [previous]. rewrite Nat.eqb_refl, Nat.sub_diag.
        destruct (Nat.leb_spec (S (S (Node.id node))) (S (Node.id node))); [lia|].
        reflexivity.
      * assert (Hno : match previous k with
                      | Some p => p =? Node.id node
                      | None => false
                      end = false).
        { destruct k as [|k']; [reflexivity|]. cbn [previous].
          apply Nat.eqb_neq. lia. }
        rewrite Hno.
        destruct (Nat.leb_spec (S k) (S (Node.id node))); [|lia].
        replace (S (Node.id node) - k) with (S (S (Node.id node) - S k)) by lia.
        reflexivity.
    + assert (Hno : match previous k with
                    | Some p => p =? Node.id node
                    | None => false
                    end = false).
      { destruct k as [|k']; [lia|]. cbn [previous]. apply Nat.eqb_neq. lia. }
      rewrite Hno.
      destruct (Nat.leb_spec (S k) (S (Node.id node))); [lia|]. reflexivity.
Qed.

Lemma filter_roots_from (l : list Node.t) (k : nat) :
  (forall j m, nth_error l j = Some m -> Node.parent_id m = previous (k + j)) ->
  filter is_root l = if k =? 0 then firstn 1 l else [].
Proof.
  revert k. induction l as [|m l IH]; intros k H.
  - now destruct (k =? 0).
  - assert (Hm : Node.parent_id m = previous k).
    { rewrite (H 0 m eq_refl). f_equal. lia. }
    assert (Hl : forall j m', nth_error l j = Some m' ->
                   Node.parent_id m' = previous (S k + j)).
    { intros j m' Hj. rewrite (H (S j) m' Hj). f_equal. lia. }
    cbn [filter]. unfold is_root at 1. rewrite Hm, (IH (S k) Hl).
    destruct k; reflexivity.
Qed.

(** X13. In every reachable session the two list comprehensions that shape
    the drawn tree follow the chain: the roots are the first node alone
    (none when the tree is empty), and the children of a node are the node
    created right after it alone (none for the node created last). *)
Theorem tree_queries_follow_chain (s : session_state) :
  reachable s ->
  root_nodes (tree_nodes s) = firstn 1 (tree_nodes s)
  /\ forall n,
       In n (tree_nodes s) ->
       children_of (tree_nodes s) n
       = match nth_error (tree_nodes s) (S (Node.id n)) with
         | Some m => [m]
         | None => []
         end.
Proof.
  intros Hreach. pose proof (reachable_chain Hreach) as Hch.
  split.
  - unfold root_nodes.
    now rewrite (@filter_roots_from (tree_nodes s) 0 (chain_parents Hch)).
  - intros n Hn. unfold children_of.
    rewrite (@filter_children_from (tree_nodes s) 0 n (chain_parents Hch)).
    cbn [Nat.leb]. now rewrite Nat.sub_0_r.
Qed.

Lemma tree_queries_follow_chain_witness :
  children_of (tree_nodes two_topics)
    (Node.mk 0 (PyStr (str "A")) (str "hi") None [])
  = [Node.mk 1 (PyStr (str "B")) (str "bye") (Some 0) []].
Proof.
  destruct (@tree_queries_follow_chain two_topics reachable_two_topics)
    as [_ H].
  apply (H (Node.mk 0 (PyStr (str "A")) (str "hi") None [])).
  left. reflexivity.
Defined.

(* ================================================================== *)
(** ** Which utterances are accepted *)

(** X14. A transcript passes the guard of [process_recording] exactly when
    it contains at least one character that is not white space; leading and
    trailing white space does not matter for the test. *)
Theorem accepted_iff_visible_character (u : pystr) :
  accepted (Some u) = true <-> exists c, In c u /\ is_space c = false.
Proof.
  split.
  - intros Ha.
    destruct (existsb (fun c => negb (is_space c)) u) eqn:Hex.
    + apply existsb_exists in Hex. destruct Hex as [c [Hin Hc]].
      exists c. split; [exact Hin|]. now apply negb_true_iff.
    + exfalso.
      assert (Hw : whitespace_only u).
      { apply Forall_forall. intros c Hin.
        destruct (is_space c) eqn:Hc; [reflexivity|].
        assert (Hex' : existsb (fun c => negb (is_space c)) u = true).
        { apply existsb_exists. exists c. split; [exact Hin|]. now rewrite Hc. }
        congruence. }
      assert (Hf : accepted (Some u) = false).
      { apply accepted_false_iff. right. exists u. auto. }
      congruence.
  - intros [c [Hin Hc]].
    destruct (accepted (Some u)) eqn:Ha; [reflexivity|].
    apply accepted_false_iff in Ha. destruct Ha as [Ha|[v [Hv Hw]]]; [discriminate|].
    injection Hv as <-. unfold whitespace_only in Hw.
    rewrite Forall_forall in Hw. specialize (Hw c Hin). congruence.
Qed.

Lemma accepted_iff_visible_character_witness :
  accepted (Some (str "  ok ")) = true.
Proof.
  apply (proj2 (accepted_iff_visible_character (str "  ok "))).
  exists 111%N. split; [right; right; left; reflexivity | reflexivity].
Defined.
